(** * DDPM variance scheduler and diffusion wrapper (ddpm.py)

    A shallow embedding of [2d_plot_diffusion_todo/ddpm.py] and of the part
    of the tensor library it calls, followed by the properties of the
    schedule, of the forward and reverse processes and of persistence.

    Modelling conventions.
    - Tensor elements of floating dtype are idealised as real numbers [R]:
      every arithmetic operation is the exact one.  Rounding, overflow,
      underflow and NaN are outside this model.
    - Integer tensors (timesteps) hold [Z]; a Python [int] is a [Z].
    - A tensor is its [shape] together with its contiguous row-major
      storage [data], as in the library.
    - Library calls that can fail return [Res]; the methods of the module
      run in the monad [M] over a [World] made of the Python objects, the
      files and the random generator.
    - The random generator is an interface ([Rng]); only the shape and the
      range of what it returns are specified ([RngLaws]), not the
      distribution. *)

From Stdlib Require Import Reals Lra Lia ZArith List String.
From stdpp Require Import base option list gmap strings.
Import ListNotations.

#[global] Instance R_inhabited : Inhabited R := populate 0%R.

(** ** Exceptions and results *)

Inductive exn : Type :=
  | NotImplementedError (msg : string)
  | RuntimeError (msg : string)
  | IndexError
  | StopIteration
  | FileNotFoundError.

Inductive Res (A : Type) : Type :=
  | Ok (a : A)
  | Raise (e : exn).
Arguments Ok {A} a.
Arguments Raise {A} e.

#[global] Instance Res_ret : MRet Res := λ A a, Ok a.
#[global] Instance Res_bind : MBind Res := λ A B f r,
  match r with
  | Ok a => f a
  | Raise e => Raise e
  end.
#[global] Instance Res_fmap : FMap Res := λ A B f r,
  match r with
  | Ok a => Ok (f a)
  | Raise e => Raise e
  end.

(** ** The tensor library *)

Module torch.

Record Tensor (A : Type) : Type := mkTensor {
  shape : list nat;
  data : list A
}.
Arguments mkTensor {A} shape data.
Arguments shape {A} t.
Arguments data {A} t.

Definition numel (s : list nat) : nat := foldr Nat.mul 1%nat s.

Definition ndim {A} (x : Tensor A) : nat := length (shape x).

(** The storage has one element per index. *)
Definition wf {A} (x : Tensor A) : Prop := length (data x) = numel (shape x).

(** Row-major offset of a multi-index, and its inverse. *)
Fixpoint ravel (s idx : list nat) : nat :=
  match s, idx with
  | _ :: s', i :: idx' => i * numel s' + ravel s' idx'
  | _, _ => 0
  end.

Fixpoint unravel (s : list nat) (k : nat) : list nat :=
  match s with
  | [] => []
  | _ :: s' => (k / numel s') :: unravel s' (k mod numel s')
  end.

Definition valid_index (s idx : list nat) : Prop := Forall2 lt idx s.

Definition item {A} `{Inhabited A} (x : Tensor A) (idx : list nat) : A :=
  nth (ravel (shape x) idx) (data x) inhabitant.

(** *** Broadcasting

    Shapes are aligned on their last dimension; two sizes are compatible
    when they are equal or one of them is 1. The helper functions work on
    reversed shapes, last dimension first. *)

Fixpoint broadcast_rev (a b : list nat) : option (list nat) :=
  match a, b with
  | [], _ => Some b
  | _, [] => Some a
  | x :: a', y :: b' =>
      match broadcast_rev a' b' with
      | Some r =>
          if decide (x = y) then Some (x :: r)
          else if decide (x = 1%nat) then Some (y :: r)
          else if decide (y = 1%nat) then Some (x :: r)
          else None
      | None => None
      end
  end.

Definition broadcast_shapes (a b : list nat) : option (list nat) :=
  reverse <$> broadcast_rev (reverse a) (reverse b).

(** The index read in a tensor of shape [s] for the index [idx] of the
    broadcast result: a dimension of size 1 is read at 0, and the leading
    dimensions that [s] does not have are dropped. *)
Fixpoint bidx_rev (s idx : list nat) : list nat :=
  match s, idx with
  | d :: s', i :: idx' => (if decide (d = 1%nat) then 0%nat else i) :: bidx_rev s' idx'
  | _, _ => []
  end.

Definition bidx (s idx : list nat) : list nat :=
  reverse (bidx_rev (reverse s) (reverse idx)).

Definition bitem {A} `{Inhabited A} (x : Tensor A) (idx : list nat) : A :=
  item x (bidx (shape x) idx).

Definition broadcast_to {A} `{Inhabited A} (x : Tensor A) (r : list nat) : Tensor A :=
  mkTensor r ((λ k, bitem x (unravel r k)) <$> seq 0 (numel r)).

(** Element-wise binary operation with broadcasting. *)
Definition binop {A B C} `{Inhabited A, Inhabited B}
    (f : A → B → C) (x : Tensor A) (y : Tensor B) : Res (Tensor C) :=
  match broadcast_shapes (shape x) (shape y) with
  | Some r =>
      Ok (mkTensor r (zip_with f (data (broadcast_to x r)) (data (broadcast_to y r))))
  | None => Raise (RuntimeError "The size of tensor a must match the size of tensor b")
  end.

Definition tmap {A B} (f : A → B) (x : Tensor A) : Tensor B :=
  mkTensor (shape x) (f <$> data x).

Definition add := binop Rplus.
Definition sub := binop Rminus.
Definition mul := binop Rmult.
Definition div := binop Rdiv.
Definition rsub (c : R) : Tensor R → Tensor R := tmap (λ v, c - v)%R.
Definition rdiv (c : R) : Tensor R → Tensor R := tmap (λ v, c / v)%R.
Definition sqrt : Tensor R → Tensor R := tmap R_sqrt.sqrt.
Definition pow2 : Tensor R → Tensor R := tmap (λ v, v * v)%R.
(** [(t != 0).float()] *)
Definition ne0_float : Tensor Z → Tensor R :=
  tmap (λ v : Z, if decide (v = 0%Z) then 0%R else 1%R).

(** [x.unsqueeze(0)] *)
Definition unsqueeze0 {A} (x : Tensor A) : Tensor A :=
  mkTensor (1%nat :: shape x) (data x).

(** [x.reshape] to the sizes [s], all non-negative. *)
Definition reshape {A} (x : Tensor A) (s : list nat) : Res (Tensor A) :=
  if decide (numel s = length (data x)) then Ok (mkTensor s (data x))
  else Raise (RuntimeError "shape is invalid for input size").

(** [x.view] to the sizes [-1] followed by [s]: the first size is inferred
    from the number of elements. *)
Definition view_infer {A} (x : Tensor A) (s : list nat) : Res (Tensor A) :=
  if decide (numel s = 0%nat) then
    Raise (RuntimeError "cannot reshape: the unspecified dimension size -1 can be any value")
  else if decide (length (data x) `mod` numel s = 0)%nat then
    Ok (mkTensor (length (data x) `div` numel s :: s)%nat (data x))
  else Raise (RuntimeError "shape is invalid for input size").

(** [torch.gather(input, 0, index)] for a one-dimensional [input]: the
    index must have as many dimensions as the input, and every entry must
    lie in [0, len(input)). *)
Definition gather (input : Tensor R) (index : Tensor Z) : Res (Tensor R) :=
  if decide (ndim input = 1%nat ∧ ndim index = 1%nat) then
    if decide (Forall (λ i : Z, 0 ≤ i < Z.of_nat (length (data input)))%Z (data index)) then
      Ok (mkTensor (shape index) ((λ i : Z, nth (Z.to_nat i) (data input) 0%R) <$> data index))
    else Raise (RuntimeError "index out of range in gather")
  else Raise (RuntimeError "Index tensor must have the same number of dimensions as input tensor").

(** [torch.linspace(start, end, steps)]: [steps] points from [start] to
    [end] at equal distance, both ends included. *)
Definition linspace (start end_ : R) (steps : Z) : Res (Tensor R) :=
  if decide (steps < 0)%Z then Raise (RuntimeError "number of steps must be non-negative")
  else
    let n := Z.to_nat steps in
    let step := ((end_ - start) / INR (n - 1))%R in
    Ok (mkTensor [n] ((λ i, start + INR i * step)%R <$> seq 0 n)).

(** [torch.cumprod(x, dim=0)] on a one-dimensional tensor. *)
Fixpoint cumprod_from (acc : R) (l : list R) : list R :=
  match l with
  | [] => []
  | a :: l' => (acc * a)%R :: cumprod_from (acc * a)%R l'
  end.

Definition cumprod (x : Tensor R) : Tensor R :=
  mkTensor (shape x) (cumprod_from 1%R (data x)).

(** [torch.tensor([t])] for a Python integer: the value must fit int64. *)
Definition tensor1 (t : Z) : Res (Tensor Z) :=
  if decide (- 2 ^ 63 ≤ t < 2 ^ 63)%Z then Ok (mkTensor [1%nat] [t])
  else Raise (RuntimeError "Overflow when unpacking long").

(** [F.mse_loss(input, target)] with the default mean reduction. *)
Definition sum_list (l : list R) : R := foldr Rplus 0%R l.

Definition mse_loss (input target : Tensor R) : Res R :=
  d ← sub input target;
  Ok (sum_list (data (pow2 d)) / INR (length (data d)))%R.

End torch.

Import torch.

(** [np.arange(0, n)] and [range(n)]: empty when [n] is not positive. *)
Definition arange (n : Z) : list Z := Z.of_nat <$> seq 0 (Z.to_nat n).

(** ** Python objects *)

Inductive Device : Type := cpu | cuda (index : nat).

Record nn_Parameter : Type := mkParameter {
  p_device : Device;
  p_data : Tensor R
}.

(** A network is its architecture, a function of the parameter values, the
    sample and the timestep, together with its named parameters in
    registration order. *)
Record Network : Type := mkNetwork {
  forward : list (Tensor R) → Tensor R → Tensor Z → Tensor R;
  parameters : list (string * nn_Parameter)
}.

Definition call (net : Network) (x : Tensor R) (t : Tensor Z) : Tensor R :=
  forward net (p_data ∘ snd <$> parameters net) x t.

Record BaseScheduler : Type := mkBaseScheduler {
  num_train_timesteps : Z;
  timesteps : Tensor Z;
  betas : Tensor R;
  alphas : Tensor R;
  alphas_cumprod : Tensor R
}.

(** The attributes of a [DiffusionModule] are references into the store. *)
Record DiffusionModule : Type := mkDiffusionModule {
  network : nat;
  var_scheduler : nat
}.

(** What [torch.save] writes in [DiffusionModule.save]: the two pickled
    objects and the state dictionary. *)
Record Checkpoint : Type := mkCheckpoint {
  hparams_network : Network;
  hparams_var_scheduler : BaseScheduler;
  state_dict_of : gmap string (Tensor R)
}.

#[global] Instance Tensor_inhabited {A} : Inhabited (Tensor A) :=
  populate (mkTensor [0%nat] []).
#[global] Instance Network_inhabited : Inhabited Network :=
  populate (mkNetwork (λ _ x _, x) []).
#[global] Instance BaseScheduler_inhabited : Inhabited BaseScheduler :=
  populate (mkBaseScheduler 0 inhabitant inhabitant inhabitant inhabitant).
#[global] Instance DiffusionModule_inhabited : Inhabited DiffusionModule :=
  populate (mkDiffusionModule 0 0).

(** ** The random generator *)

Class Rng (G : Type) : Type := {
  (** [torch.randn(shape)] *)
  randn : list nat → G → Tensor R * G;
  (** [torch.randint(low, high, size)] for [low < high] *)
  randint : Z → Z → list nat → G → Tensor Z * G
}.

(** What the library promises of a draw: its shape, and the range of the
    integers. *)
Class RngLaws (G : Type) `{!Rng G} : Prop := {
  randn_shape : ∀ s g, shape (randn s g).1 = s;
  randn_wf : ∀ s g, wf (randn s g).1;
  randint_shape : ∀ lo hi s g, shape (randint lo hi s g).1 = s;
  randint_wf : ∀ lo hi s g, wf (randint lo hi s g).1;
  randint_range : ∀ lo hi s g, (lo < hi)%Z →
    Forall (λ v, lo ≤ v < hi)%Z (data (randint lo hi s g).1)
}.

(** ** The world and its monad *)

Record World (G : Type) : Type := mkWorld {
  modules : list DiffusionModule;
  networks : list Network;
  schedulers : list BaseScheduler;
  files : gmap string Checkpoint;
  gen : G
}.
Arguments mkWorld {G}.
Arguments modules {G}.
Arguments networks {G}.
Arguments schedulers {G}.
Arguments files {G}.
Arguments gen {G}.

Definition M (G A : Type) : Type := World G → Res A * World G.

#[global] Instance M_ret {G} : MRet (M G) := λ A a w, (Ok a, w).
#[global] Instance M_bind {G} : MBind (M G) := λ A B f m w,
  match m w with
  | (Ok a, w') => f a w'
  | (Raise e, w') => (Raise e, w')
  end.

Definition lift {G A} (r : Res A) : M G A := λ w, (r, w).

Section Ddpm.
Context {G : Type} `{!Rng G}.
#[local] Abbreviation M := (M G).
#[local] Abbreviation World := (World G).

Definition get_module (r : nat) : M DiffusionModule := λ w, (Ok (modules w !!! r), w).
Definition get_network (r : nat) : M Network := λ w, (Ok (networks w !!! r), w).
Definition get_scheduler (r : nat) : M BaseScheduler := λ w, (Ok (schedulers w !!! r), w).

Definition new_module (m : DiffusionModule) : M nat := λ w,
  (Ok (length (modules w)),
   mkWorld (modules w ++ [m]) (networks w) (schedulers w) (files w) (gen w)).
Definition new_network (n : Network) : M nat := λ w,
  (Ok (length (networks w)),
   mkWorld (modules w) (networks w ++ [n]) (schedulers w) (files w) (gen w)).
Definition new_scheduler (s : BaseScheduler) : M nat := λ w,
  (Ok (length (schedulers w)),
   mkWorld (modules w) (networks w) (schedulers w ++ [s]) (files w) (gen w)).

Definition set_module (r : nat) (m : DiffusionModule) : M unit := λ w,
  (Ok (), mkWorld (<[r := m]> (modules w)) (networks w) (schedulers w) (files w) (gen w)).
Definition set_network (r : nat) (n : Network) : M unit := λ w,
  (Ok (), mkWorld (modules w) (<[r := n]> (networks w)) (schedulers w) (files w) (gen w)).
Definition set_scheduler (r : nat) (s : BaseScheduler) : M unit := λ w,
  (Ok (), mkWorld (modules w) (networks w) (<[r := s]> (schedulers w)) (files w) (gen w)).

Definition torch_randn (s : list nat) : M (Tensor R) := λ w,
  let '(x, g) := randn s (gen w) in
  (Ok x, mkWorld (modules w) (networks w) (schedulers w) (files w) g).

Definition randn_like {A} (x : Tensor A) : M (Tensor R) := torch_randn (shape x).

Definition torch_randint (low high : Z) (size : list nat) : M (Tensor Z) := λ w,
  if decide (low < high)%Z then
    let '(x, g) := randint low high size (gen w) in
    (Ok x, mkWorld (modules w) (networks w) (schedulers w) (files w) g)
  else (Raise (RuntimeError "random_ expects 'from' to be less than 'to'"), w).

(** ** ddpm.py

    The functions and methods of the source, in its order. [self] is the
    reference of the module in the store. Conversions that do not change a
    value ([.long()] on an integer tensor, [.to(device)], [.float()] of a
    real) are left out. *)

(** [extract(input, t, x)]: the entries of [input] at the indices [t], as a
    tensor of shape [[len(t), 1, ..., 1]] with as many dimensions as [x]. *)
Definition extract {A} (input : Tensor R) (t : Tensor Z) (x : Tensor A) : Res (Tensor R) :=
  let t := if decide (ndim t = 0%nat) then unsqueeze0 t else t in
  let shape_ := shape x in
  out ← gather input t;
  match shape t with
  | n :: _ => reshape out (n :: replicate (length shape_ - 1) 1%nat)
  | [] => Raise IndexError
  end.

(** [BaseScheduler.__init__]; the defaults of the source are
    [beta_1 = 1e-4], [beta_T = 0.02], [mode = "linear"]. For a negative
    [beta] the source's [beta ** 0.5] leaves the reals; the properties of
    mode "quad" below are stated for non-negative boundary values. *)
Definition BaseScheduler_init
    (num_train_timesteps : Z) (beta_1 beta_T : R) (mode : string) : M nat :=
  let timesteps :=
    mkTensor [Z.to_nat num_train_timesteps] (reverse (arange num_train_timesteps)) in
  betas ← lift (
    if decide (mode = "linear") then linspace beta_1 beta_T num_train_timesteps
    else if decide (mode = "quad") then
      pow2 <$> linspace (R_sqrt.sqrt beta_1) (R_sqrt.sqrt beta_T) num_train_timesteps
    else Raise (NotImplementedError (mode +:+ " is not implemented.")));
  let alphas := rsub 1 betas in
  let alphas_cumprod := cumprod alphas in
  new_scheduler (mkBaseScheduler num_train_timesteps timesteps betas alphas alphas_cumprod).

(** [DiffusionModule.__init__] *)
Definition DiffusionModule_init (network var_scheduler : nat) : M nat :=
  new_module (mkDiffusionModule network var_scheduler).

(** The property [device]: [next(self.network.parameters()).device]. *)
Definition device (self : nat) : M Device :=
  m ← get_module self;
  net ← get_network (network m);
  match parameters net with
  | p :: _ => mret (p_device p.2)
  | [] => lift (Raise StopIteration)
  end.

(** [q_sample(x0, t, noise=None)]: sample [x_t] from [q(x_t | x_0)]. *)
Definition q_sample (self : nat) (x0 : Tensor R) (t : Tensor Z)
    (noise : option (Tensor R)) : M (Tensor R) :=
  noise ← match noise with
          | None => randn_like x0
          | Some noise => mret noise
          end;
  m ← get_module self;
  vs ← get_scheduler (var_scheduler m);
  alphas_prod_t ← lift (extract (alphas_cumprod vs) t x0);
  lift (
    a ← mul (torch.sqrt alphas_prod_t) x0;
    b ← mul (torch.sqrt (rsub 1 alphas_prod_t)) noise;
    add a b).

(** The timestep argument of [p_sample]: a Python [int] or a tensor. *)
Inductive timestep : Type :=
  | t_int (t : Z)
  | t_tensor (t : Tensor Z).

(** [p_sample(xt, t)]: one denoising step, [x_t -> x_{t-1}]. *)
Definition p_sample (self : nat) (xt : Tensor R) (t : timestep) : M (Tensor R) :=
  t ← match t with
       | t_int t => t ← lift (tensor1 t); _ ← device self; mret t
       | t_tensor t => mret t
       end;
  m ← get_module self;
  vs ← get_scheduler (var_scheduler m);
  alphas_cumprod_t ← lift (extract (alphas_cumprod vs) t xt);
  alphas_t ← lift (extract (alphas vs) t xt);
  betas_t ← lift (extract (betas vs) t xt);
  eps_factor ← lift (div (rsub 1 alphas_t) (torch.sqrt (rsub 1 alphas_cumprod_t)));
  net ← get_network (network m);
  let eps_theta := call net xt t in
  noise ← randn_like xt;
  nonzero_mask ← lift (view_infer (ne0_float t) (replicate (ndim xt - 1) 1%nat));
  lift (
    c ← mul eps_factor eps_theta;
    d ← sub xt c;
    mean ← mul (rdiv 1 (torch.sqrt alphas_t)) d;
    e ← mul (torch.sqrt betas_t) noise;
    f ← mul nonzero_mask e;
    add mean f).

(** [for a in l: x = body(x, a)] *)
Fixpoint for_each {A B} (l : list A) (body : B → A → M B) (x : B) : M B :=
  match l with
  | [] => mret x
  | a :: l' => x' ← body x a; for_each l' body x'
  end.

(** [p_sample_loop(shape)]: the loop of the reverse process. *)
Definition p_sample_loop (self : nat) (shape_ : list nat) : M (Tensor R) :=
  x0_pred ← torch_randn shape_;
  _ ← device self;
  m ← get_module self;
  vs ← get_scheduler (var_scheduler m);
  for_each (reverse (arange (num_train_timesteps vs)))
    (λ x0_pred t,
       t_tensor_ ← lift (tensor1 t);
       _ ← device self;
       p_sample self x0_pred (t_tensor t_tensor_))
    x0_pred.

(** [compute_loss(x0)]: the simplified noise matching loss. *)
Definition compute_loss (self : nat) (x0 : Tensor R) : M R :=
  batch_size ← lift (match shape x0 with
                     | b :: _ => Ok b
                     | [] => Raise IndexError
                     end);
  m ← get_module self;
  vs ← get_scheduler (var_scheduler m);
  t ← torch_randint 0 (num_train_timesteps vs) [batch_size];
  noise ← randn_like x0;
  xt ← q_sample self x0 t (Some noise);
  net ← get_network (network m);
  let pred_noise := call net xt t in
  lift (mse_loss pred_noise noise).

(** [self.state_dict()]: the parameters of the network and the registered
    buffers of the scheduler under their dotted names. [timesteps] is a
    plain attribute and is not part of it. *)
Definition state_dict_at (net : Network) (vs : BaseScheduler) : gmap string (Tensor R) :=
  <["var_scheduler.betas" := betas vs]> (
  <["var_scheduler.alphas" := alphas vs]> (
  <["var_scheduler.alphas_cumprod" := alphas_cumprod vs]> (
  list_to_map ((λ np, ("network." +:+ np.1, p_data np.2)) <$> parameters net)))).

Definition state_dict (self : nat) : M (gmap string (Tensor R)) :=
  m ← get_module self;
  net ← get_network (network m);
  vs ← get_scheduler (var_scheduler m);
  mret (state_dict_at net vs).

(** [torch.save(dic, file_path)] *)
Definition torch_save (dic : Checkpoint) (file_path : string) : M unit := λ w,
  (Ok (), mkWorld (modules w) (networks w) (schedulers w)
            (<[file_path := dic]> (files w)) (gen w)).

Definition to_cpu (net : Network) : Network :=
  mkNetwork (forward net) ((λ np, (np.1, mkParameter cpu (p_data np.2))) <$> parameters net).

(** [torch.load(file_path, map_location="cpu")]: unpickling creates new
    objects, with their tensors on the CPU. (The pickled modules are read
    back, as [torch.load] does when it is not restricted to weights.) *)
Definition torch_load (file_path : string) : M (nat * nat * gmap string (Tensor R)) := λ w,
  match files w !! file_path with
  | Some dic =>
      (hp_network ← new_network (to_cpu (hparams_network dic));
       hp_var_scheduler ← new_scheduler (hparams_var_scheduler dic);
       mret (hp_network, hp_var_scheduler, state_dict_of dic)) w
  | None => (Raise FileNotFoundError, w)
  end.

(** The value a parameter or buffer holds after [load_state_dict]: the
    entry of the state dictionary is copied in place when it is there with
    the same shape. *)
Definition load_from (sd : gmap string (Tensor R)) (key : string) (cur : Tensor R) : Tensor R :=
  match sd !! key with
  | Some v => if decide (shape v = shape cur) then v else cur
  | None => cur
  end.

(** What [load_state_dict] leaves in the network and in the scheduler. *)
Definition load_into_network (sd : gmap string (Tensor R)) (net : Network) : Network :=
  mkNetwork (forward net)
    ((λ np, (np.1, mkParameter (p_device np.2)
                     (load_from sd ("network." +:+ np.1) (p_data np.2))))
       <$> parameters net).

Definition load_into_scheduler (sd : gmap string (Tensor R)) (vs : BaseScheduler)
    : BaseScheduler :=
  mkBaseScheduler (num_train_timesteps vs) (timesteps vs)
    (load_from sd "var_scheduler.betas" (betas vs))
    (load_from sd "var_scheduler.alphas" (alphas vs))
    (load_from sd "var_scheduler.alphas_cumprod" (alphas_cumprod vs)).

(** [self.load_state_dict(state_dict)] with the default [strict=True]:
    the matching entries are copied, then missing keys, unexpected keys and
    size mismatches raise. *)
Definition load_state_dict (self : nat) (sd : gmap string (Tensor R)) : M unit :=
  m ← get_module self;
  net ← get_network (network m);
  vs ← get_scheduler (var_scheduler m);
  _ ← set_network (network m) (load_into_network sd net);
  _ ← set_scheduler (var_scheduler m) (load_into_scheduler sd vs);
  let expected := state_dict_at net vs in
  if decide (dom sd = dom expected
             ∧ map_Forall (λ k v, shape <$> sd !! k = Some (shape v)) expected)
  then mret ()
  else lift (Raise (RuntimeError "Error(s) in loading state_dict for DiffusionModule")).

(** [save(file_path)] *)
Definition save (self : nat) (file_path : string) : M unit :=
  m ← get_module self;
  net ← get_network (network m);
  vs ← get_scheduler (var_scheduler m);
  state_dict_ ← state_dict self;
  let dic := mkCheckpoint net vs state_dict_ in
  torch_save dic file_path.

(** [load(file_path)] *)
Definition load (self : nat) (file_path : string) : M unit :=
  dic ← torch_load file_path;
  let '(hp_network, hp_var_scheduler, state_dict_) := dic in
  m ← get_module self;
  _ ← set_module self (mkDiffusionModule hp_network (var_scheduler m));
  m ← get_module self;
  _ ← set_module self (mkDiffusionModule (network m) hp_var_scheduler);
  load_state_dict self state_dict_.

(** *** The operations of the module, as one step function *)

Inductive Op : Type :=
  | op_BaseScheduler (num_train_timesteps : Z) (beta_1 beta_T : R) (mode : string)
  | op_DiffusionModule (network var_scheduler : nat)
  | op_q_sample (self : nat) (x0 : Tensor R) (t : Tensor Z) (noise : option (Tensor R))
  | op_p_sample (self : nat) (xt : Tensor R) (t : timestep)
  | op_p_sample_loop (self : nat) (shape_ : list nat)
  | op_compute_loss (self : nat) (x0 : Tensor R)
  | op_save (self : nat) (file_path : string)
  | op_load (self : nat) (file_path : string).

Definition run (o : Op) (w : World) : Res unit * World :=
  match o with
  | op_BaseScheduler T b1 bT mode => (_ ← BaseScheduler_init T b1 bT mode; mret ()) w
  | op_DiffusionModule n s => (_ ← DiffusionModule_init n s; mret ()) w
  | op_q_sample self x0 t noise => (_ ← q_sample self x0 t noise; mret ()) w
  | op_p_sample self xt t => (_ ← p_sample self xt t; mret ()) w
  | op_p_sample_loop self s => (_ ← p_sample_loop self s; mret ()) w
  | op_compute_loss self x0 => (_ ← compute_loss self x0; mret ()) w
  | op_save self p => save self p w
  | op_load self p => load self p w
  end.

End Ddpm.

(** ** Vocabulary of the specification *)

(** [m] run in [w] returns a value and a world that satisfy [P]; a raised
    exception does not. *)
Definition wp {G A} (m : M G A) (w : World G) (P : A → World G → Prop) : Prop :=
  match m w with
  | (Ok a, w') => P a w'
  | (Raise _, _) => False
  end.

Definition add_scheduler {G} (w : World G) (vs : BaseScheduler) : World G :=
  mkWorld (modules w) (networks w) (schedulers w ++ [vs]) (files w) (gen w).

Definition set_gen {G} (w : World G) (g : G) : World G :=
  mkWorld (modules w) (networks w) (schedulers w) (files w) g.

Definition same_objects {G} (w w' : World G) : Prop :=
  modules w' = modules w ∧ networks w' = networks w
  ∧ schedulers w' = schedulers w ∧ files w' = files w.

(** The scheduler and the network of a module. *)
Definition scheduler_of {G} (w : World G) (self : nat) : BaseScheduler :=
  schedulers w !!! var_scheduler (modules w !!! self).
Definition network_of {G} (w : World G) (self : nat) : Network :=
  networks w !!! network (modules w !!! self).

(** *** Shapes *)

(** The shape [a] broadcasts to the shape [r] (both reversed): every size
    of [a] is the size of [r] or 1, and [r] may have more dimensions. *)
Fixpoint expands_rev (a r : list nat) : Prop :=
  match a, r with
  | [], _ => True
  | x :: a', y :: r' => (x = y ∨ x = 1%nat) ∧ expands_rev a' r'
  | _ :: _, [] => False
  end.

Definition expands (a r : list nat) : Prop := expands_rev (reverse a) (reverse r).

Definition zeros (s : list nat) : Tensor R := mkTensor s (replicate (numel s) 0%R).

(** *** The schedule *)

Definition supported (mode : string) : Prop := mode = "linear" ∨ mode = "quad".

(** Linear interpolation from [a] to [b] in [n] points. *)
Definition interp (a b : R) (n i : nat) : R := (a + INR i * ((b - a) / INR (n - 1)))%R.

(** The betas of the specification: the interpolation of the boundary
    values, or the square of the interpolation of their square roots. *)
Definition betas_at (mode : string) (b1 bT : R) (n i : nat) : R :=
  if decide (mode = "linear") then interp b1 bT n i
  else (interp (R_sqrt.sqrt b1) (R_sqrt.sqrt bT) n i
        * interp (R_sqrt.sqrt b1) (R_sqrt.sqrt bT) n i)%R.

Definition prod_list (l : list R) : R := foldr Rmult 1%R l.

Definition nondecreasing (x : Tensor R) : Prop :=
  ∀ i j, i ≤ j < length (data x) → (item x [i] <= item x [j])%R.
Definition nonincreasing (x : Tensor R) : Prop :=
  ∀ i j, i ≤ j < length (data x) → (item x [j] <= item x [i])%R.
Definition strictly_decreasing (x : Tensor R) : Prop :=
  ∀ i j, i < j < length (data x) → (item x [j] < item x [i])%R.
Definition within_unit (x : Tensor R) : Prop :=
  ∀ i, i < length (data x) → (0 < item x [i] <= 1)%R.

(** The three buffers are one-dimensional, of length [num_train_timesteps]. *)
Definition scheduler_ok (vs : BaseScheduler) : Prop :=
  let n := Z.to_nat (num_train_timesteps vs) in
  (shape (betas vs) = [n] ∧ shape (alphas vs) = [n] ∧ shape (alphas_cumprod vs) = [n])
  ∧ (wf (betas vs) ∧ wf (alphas vs) ∧ wf (alphas_cumprod vs)).

(** *** Timesteps *)

(** [t] is a scalar tensor, or holds [n] timesteps. *)
Definition batch_of (t : Tensor Z) (n : nat) : Prop :=
  wf t ∧ (shape t = [n] ∨ (shape t = [] ∧ n = 1)).

(** The timestep of example [i] when [t] holds one timestep for all
    examples or one per example. *)
Definition timestep_at (t : Tensor Z) (i : nat) : Z :=
  nth (if decide (length (data t) = 1) then 0 else i) (data t) 0%Z.

(** [buf[k]] *)
Definition sched_at (buf : Tensor R) (k : Z) : R := nth (Z.to_nat k) (data buf) 0%R.

Definition timesteps_in_range (buf : Tensor R) (t : Tensor Z) : Prop :=
  Forall (λ v : Z, 0 ≤ v < Z.of_nat (length (data buf)))%Z (data t).

(** The timestep tensor that [p_sample] works with. *)
Definition as_tensor (t : timestep) : Tensor Z :=
  match t with
  | t_int z => mkTensor [1] [z]
  | t_tensor t => t
  end.

Definition mask_at (t : Tensor Z) (i : nat) : R :=
  if decide (timestep_at t i = 0%Z) then 0%R else 1%R.

(** [reversed(range(T))] *)
Definition descending (T : Z) : list Z := reverse (arange T).

(** *** The collaborators *)

(** The network returns a tensor of the shape of the sample. *)
Definition network_ok (net : Network) : Prop :=
  ∀ x t, wf x → wf (call net x t) ∧ shape (call net x t) = shape x.

(** The noise that [q_sample] uses: the argument, or a fresh draw. *)
Definition noise_used {G} `{!Rng G} (noise : option (Tensor R)) (s : list nat) (w : World G)
    : Tensor R :=
  match noise with
  | Some nz => nz
  | None => (randn s (gen w)).1
  end.

(** The chain of denoising steps along a list of timesteps: each step is
    one call of [p_sample] on the result of the step before. *)
Inductive run_steps {G} `{!Rng G} (self : nat) :
    list Z → Tensor R → World G → Tensor R → World G → Prop :=
  | run_steps_nil x w : run_steps self [] x w x w
  | run_steps_cons t ts x w x' w' x'' w'' :
      p_sample self x (t_tensor (mkTensor [1] [t])) w = (Ok x', w') →
      run_steps self ts x' w' x'' w'' →
      run_steps self (t :: ts) x w x'' w''.

(** Mean of the squared differences. *)
Definition mse (a b : list R) : R :=
  (sum_list (zip_with (λ p q, (p - q) * (p - q)) a b) / INR (length b))%R.

(** *** Persistence *)

(** The world after [load] has read the checkpoint [dic], and its result. *)
Definition loaded_world {G} (w : World G) (self : nat) (dic : Checkpoint) : World G :=
  let sd := state_dict_of dic in
  mkWorld
    (<[self := mkDiffusionModule (length (networks w)) (length (schedulers w))]> (modules w))
    (networks w ++ [load_into_network sd (to_cpu (hparams_network dic))])
    (schedulers w ++ [load_into_scheduler sd (hparams_var_scheduler dic)])
    (files w) (gen w).

Definition load_result (dic : Checkpoint) : Res unit :=
  let sd := state_dict_of dic in
  let expected := state_dict_at (to_cpu (hparams_network dic)) (hparams_var_scheduler dic) in
  if decide (dom sd = dom expected
             ∧ map_Forall (λ k v, shape <$> sd !! k = Some (shape v)) expected)
  then Ok ()
  else Raise (RuntimeError "Error(s) in loading state_dict for DiffusionModule").

(** *** Errors and frames *)

(** A result that is no unsupported-configuration error. *)
Definition library_result {A} (r : Res A) : Prop :=
  ∀ msg, r ≠ Raise (NotImplementedError msg).

(** A computation that leaves the scheduler objects alone and raises no
    unsupported-configuration error. *)
Definition tame {G A} (m : M G A) : Prop :=
  ∀ w, schedulers (m w).2 = schedulers w ∧ library_result (m w).1.

Definition self_of (o : Op) : option nat :=
  match o with
  | op_BaseScheduler _ _ _ _ | op_DiffusionModule _ _ => None
  | op_q_sample self _ _ _ | op_p_sample self _ _ | op_p_sample_loop self _
  | op_compute_loss self _ | op_save self _ | op_load self _ => Some self
  end.

(** The module an operation is called on exists. *)
Definition op_wf {G} (o : Op) (w : World G) : Prop :=
  ∀ self, self_of o = Some self → self < length (modules w).

(** *** Further vocabulary *)

(** The world after [q_sample] has taken its noise: the generator moves
    only when the noise is drawn. *)
Definition world_after_noise {G} `{!Rng G} (noise : option (Tensor R)) (s : list nat)
    (w : World G) : World G :=
  match noise with
  | Some _ => w
  | None => set_gen w (randn s (gen w)).2
  end.

(** The generator after [n] draws of [torch.randn(s)]. *)
Fixpoint after_draws {G} `{!Rng G} (s : list nat) (n : nat) (g : G) : G :=
  match n with
  | O => g
  | S n' => after_draws s n' (randn s g).2
  end.

(** Two modules, each in its world, with the same scheduler, networks of
    the same function, and both with or both without parameters. *)
Definition alike {G} (w : World G) (self : nat) (w' : World G) (self' : nat) : Prop :=
  scheduler_of w self = scheduler_of w' self'
  ∧ (∀ x t, call (network_of w self) x t = call (network_of w' self') x t)
  ∧ (parameters (network_of w self) = [] ↔ parameters (network_of w' self') = []).

(** [m] in [w] and [m'] in [w'] return the same result and leave the same
    generator. *)
Definition agree {G A} (m : M G A) (w : World G) (m' : M G A) (w' : World G) : Prop :=
  (m w).1 = (m' w').1 ∧ gen (m w).2 = gen (m' w').2.

(** [m] over the objects of [w0] and [m'] over those of [w0'] return the
    same result from every generator state, move the generator alike and
    leave the objects alone. *)
Definition sim {G A} (w0 w0' : World G) (m m' : M G A) : Prop :=
  ∀ g, ∃ r g', m (set_gen w0 g) = (r, set_gen w0 g')
               ∧ m' (set_gen w0' g) = (r, set_gen w0' g').

(** ** A small world to run the operations in *)

(** A generator that counts its draws. *)
#[global] Instance counter_rng : Rng nat := {|
  randn s g := (mkTensor s (replicate (numel s) (INR g)), S g);
  randint lo hi s g := (mkTensor s (replicate (numel s) lo), S g)
|}.

Definition empty_world : World nat := mkWorld [] [] [] ∅ 0.

(** A network that predicts the sample itself as noise. *)
Definition toy_network : Network :=
  mkNetwork (λ _ x _, x) [("weight", mkParameter cpu (mkTensor [1] [1%R]))].

(** One module over a two-step linear schedule. *)
Definition toy_world : World nat :=
  ((s ← BaseScheduler_init 2 (1 / 10) (2 / 10) "linear";
    n ← new_network toy_network;
    DiffusionModule_init n s) empty_world).2.

Definition toy_x0 : Tensor R := mkTensor [2; 2] [1; 2; 3; 4]%R.
Definition toy_t : Tensor Z := mkTensor [2] [0; 1]%Z.

(** A module over a network without parameters. *)
Definition bare_network : Network := mkNetwork (λ _ x _, x) [].

Definition bare_world : World nat :=
  ((s ← BaseScheduler_init 2 (1 / 10) (2 / 10) "linear";
    n ← new_network bare_network;
    DiffusionModule_init n s) empty_world).2.

(** A module over a schedule without timesteps. *)
Definition idle_world : World nat :=
  ((s ← BaseScheduler_init 0 (1 / 10) (2 / 10) "linear";
    n ← new_network toy_network;
    DiffusionModule_init n s) empty_world).2.

(** Two modules over the same network and the same scheduler. *)
Definition twin_world : World nat := (DiffusionModule_init 0 0 toy_world).2.

(** The small world with a checkpoint whose state dictionary is empty. *)
Definition stale_world : World nat :=
  mkWorld (modules toy_world) (networks toy_world) (schedulers toy_world)
    {[ "stale.ckpt"%string := mkCheckpoint toy_network (scheduler_of toy_world 0) ∅ ]} 0%nat.

(** * Properties *)

(** ** Indices and broadcasting *)

Lemma ravel_lt s idx : valid_index s idx → ravel s idx < numel s.
Proof.
  unfold valid_index. intros H. induction H as [|i d idx s Hi H IH]; simpl; [lia|].
  nia.
Qed.

Lemma unravel_ravel s idx : valid_index s idx → unravel s (ravel s idx) = idx.
Proof.
  unfold valid_index. intros H. induction H as [|i d idx s Hi H IH]; simpl; [done|].
  pose proof (ravel_lt s idx H) as Hlt.
  assert (Hn : numel s ≠ 0) by lia.
  f_equal.
  - rewrite Nat.div_add_l by done. rewrite Nat.div_small by done. lia.
  - rewrite Nat.add_comm, Nat.Div0.mod_add. rewrite Nat.mod_small by done. done.
Qed.

Lemma unravel_valid s k : k < numel s → valid_index s (unravel s k).
Proof.
  unfold valid_index. revert k. induction s as [|d s IH]; intros k Hk; simpl in *.
  - constructor.
  - assert (Hn : numel s ≠ 0) by (intros E; rewrite E in Hk; lia).
    constructor.
    + apply Nat.Div0.div_lt_upper_bound. lia.
    + apply IH. apply Nat.mod_upper_bound. done.
Qed.

Lemma ravel_unravel s k : k < numel s → ravel s (unravel s k) = k.
Proof.
  revert k. induction s as [|d s IH]; intros k Hk; simpl in *.
  - lia.
  - assert (Hn : numel s ≠ 0) by (intros E; rewrite E in Hk; lia).
    rewrite IH by (apply Nat.mod_upper_bound; done).
    pose proof (Nat.div_mod_eq k (numel s)). lia.
Qed.

Lemma expands_rev_refl a : expands_rev a a.
Proof. induction a; simpl; auto. Qed.

Lemma expands_rev_length a r : expands_rev a r → length a ≤ length r.
Proof.
  revert r. induction a as [|x a IH]; intros [|y r]; simpl; try tauto; try lia.
  intros [_ H]. apply IH in H. lia.
Qed.

Lemma broadcast_rev_expands a b r :
  broadcast_rev a b = Some r → expands_rev a r ∧ expands_rev b r.
Proof.
  revert b r. induction a as [|x a IH]; intros b r; simpl.
  - intros [= <-]. split; [done|apply expands_rev_refl].
  - destruct b as [|y b].
    + intros [= <-]. split; [apply (expands_rev_refl (x :: a))|done].
    + destruct (broadcast_rev a b) as [r'|] eqn:E; [|done].
      destruct (IH _ _ E) as [Ha Hb].
      repeat case_decide; intros [= <-]; simpl; subst; auto.
Qed.

Lemma bidx_rev_valid a r idx :
  expands_rev a r → Forall2 lt idx r → Forall2 lt (bidx_rev a idx) a.
Proof.
  intros Ha Hv. revert a Ha. induction Hv as [|i y idx r Hi Hv IH]; intros [|x a]; simpl; try done.
  intros [Hx Ha]. constructor; [|auto].
  case_decide; [lia|]. destruct Hx; [lia|done].
Qed.

Lemma bidx_rev_comp a r idx :
  expands_rev a r → length r ≤ length idx →
  bidx_rev a (bidx_rev r idx) = bidx_rev a idx.
Proof.
  revert r idx. induction a as [|x a IH]; intros [|y r] [|i idx]; simpl; try done; try lia.
  intros [Hx Ha] Hl. f_equal; [|apply IH; [done|lia]].
  repeat case_decide; try done. destruct Hx; subst; done.
Qed.

Lemma bidx_rev_self r idx : Forall2 lt idx r → bidx_rev r idx = idx.
Proof.
  induction 1 as [|i y idx r Hi Hv IH]; simpl; [done|].
  f_equal; [|done]. case_decide; lia.
Qed.

Lemma valid_index_reverse s idx :
  valid_index s idx ↔ Forall2 lt (reverse idx) (reverse s).
Proof.
  unfold valid_index. split; [apply Forall2_reverse|].
  intros H. apply Forall2_reverse in H. by rewrite !reverse_involutive in H.
Qed.

Lemma expands_refl a : expands a a.
Proof. apply expands_rev_refl. Qed.

Lemma broadcast_shapes_expands a b r :
  broadcast_shapes a b = Some r → expands a r ∧ expands b r.
Proof.
  unfold broadcast_shapes, expands. intros H.
  destruct (broadcast_rev (reverse a) (reverse b)) as [r'|] eqn:E; simplify_eq/=.
  rewrite reverse_involutive. by apply broadcast_rev_expands.
Qed.

Lemma bidx_valid a r idx : expands a r → valid_index r idx → valid_index a (bidx a idx).
Proof.
  intros Ha Hv. apply (proj2 (valid_index_reverse _ _)). unfold bidx. rewrite reverse_involutive.
  eapply bidx_rev_valid; [exact Ha|]. by apply (proj1 (valid_index_reverse r idx)).
Qed.

Lemma bidx_comp a r r' idx :
  expands a r → expands r r' → valid_index r' idx → bidx a (bidx r idx) = bidx a idx.
Proof.
  intros Ha Hr Hv. unfold bidx. rewrite reverse_involutive. f_equal.
  apply bidx_rev_comp; [done|].
  apply expands_rev_length in Hr. apply (proj1 (valid_index_reverse _ _)) in Hv.
  apply Forall2_length in Hv. lia.
Qed.

Lemma bidx_self r idx : valid_index r idx → bidx r idx = idx.
Proof.
  intros Hv. unfold bidx.
  rewrite bidx_rev_self by (by apply (proj1 (valid_index_reverse _ _))).
  apply reverse_involutive.
Qed.

Section items.
Context {A B C : Type} `{!Inhabited A, !Inhabited B, !Inhabited C}.

Lemma broadcast_to_wf (x : Tensor A) r : wf (broadcast_to x r).
Proof. unfold wf, broadcast_to; simpl. by rewrite length_fmap, length_seq. Qed.

Lemma item_broadcast_to (x : Tensor A) r idx :
  valid_index r idx → item (broadcast_to x r) idx = bitem x idx.
Proof.
  intros Hv. unfold item at 1. simpl. rewrite nth_lookup, list_lookup_fmap.
  rewrite lookup_seq_lt by (by apply ravel_lt). simpl.
  by rewrite unravel_ravel.
Qed.

Lemma binop_shape (f : A → B → C) x y z :
  binop f x y = Ok z → broadcast_shapes (shape x) (shape y) = Some (shape z).
Proof.
  unfold binop. destruct (broadcast_shapes _ _) as [r|]; [|done]. by intros [= <-].
Qed.

Lemma binop_wf (f : A → B → C) x y z : binop f x y = Ok z → wf z.
Proof.
  unfold binop. destruct (broadcast_shapes _ _) as [r|]; [|done]. intros [= <-].
  unfold wf; simpl. rewrite length_zip_with, !length_fmap, !length_seq. lia.
Qed.

Lemma item_binop (f : A → B → C) x y z idx :
  binop f x y = Ok z → valid_index (shape z) idx →
  item z idx = f (bitem x idx) (bitem y idx).
Proof.
  unfold binop. destruct (broadcast_shapes _ _) as [r|]; [|done]. intros [= <-] Hv.
  simpl in Hv. unfold item at 1; simpl.
  rewrite nth_lookup, lookup_zip_with, !list_lookup_fmap.
  rewrite lookup_seq_lt by (by apply ravel_lt). simpl.
  by rewrite unravel_ravel.
Qed.

(** Reading the result of an operation through broadcasting reads the operands
    through broadcasting. *)
Lemma bitem_binop (f : A → B → C) x y z r idx :
  binop f x y = Ok z → expands (shape z) r → valid_index r idx →
  bitem z idx = f (bitem x idx) (bitem y idx).
Proof.
  intros Hz Hr Hv. unfold bitem at 1.
  rewrite (item_binop f x y z) by eauto using bidx_valid.
  destruct (broadcast_shapes_expands _ _ _ (binop_shape _ _ _ _ Hz)) as [Hx Hy].
  unfold bitem. by rewrite !(bidx_comp _ (shape z) r idx).
Qed.

Lemma item_tmap (f : A → B) (x : Tensor A) idx :
  wf x → valid_index (shape x) idx → item (tmap f x) idx = f (item x idx).
Proof.
  intros Hw Hv. unfold item, tmap; simpl. rewrite !nth_lookup, list_lookup_fmap.
  destruct (lookup_lt_is_Some_2 (data x) (ravel (shape x) idx)) as [v ->]; [|done].
  rewrite Hw. by apply ravel_lt.
Qed.

Lemma bitem_tmap (f : A → B) (x : Tensor A) r idx :
  wf x → expands (shape x) r → valid_index r idx →
  bitem (tmap f x) idx = f (bitem x idx).
Proof. intros. unfold bitem. simpl. apply item_tmap; eauto using bidx_valid. Qed.

Lemma tmap_wf (f : A → B) (x : Tensor A) : wf x → wf (tmap f x).
Proof. unfold wf, tmap; simpl. by rewrite length_fmap. Qed.

(** Two well-formed tensors of one shape with the same items are equal. *)
Lemma tensor_ext (x y : Tensor A) :
  wf x → wf y → shape x = shape y →
  (∀ idx, valid_index (shape x) idx → item x idx = item y idx) → x = y.
Proof.
  destruct x as [s dx], y as [s' dy]. unfold wf, item; simpl.
  intros Hx Hy <- H. f_equal. apply list_eq_same_length with (numel s); [done..|].
  intros k a b Hk Ha Hb.
  specialize (H (unravel s k) (unravel_valid s k Hk)).
  rewrite (ravel_unravel s k Hk), !nth_lookup, Ha, Hb in H. done.
Qed.

End items.

Lemma broadcast_rev_l a r : expands_rev a r → broadcast_rev a r = Some r.
Proof.
  revert r. induction a as [|x a IH]; intros [|y r]; simpl; try done.
  intros [Hx Ha]. rewrite (IH _ Ha).
  destruct Hx as [-> | ->]; repeat case_decide; subst; done.
Qed.

Lemma broadcast_rev_r a r : expands_rev a r → broadcast_rev r a = Some r.
Proof.
  revert r. induction a as [|x a IH]; intros [|y r]; simpl; try done.
  intros [Hx Ha]. rewrite (IH _ Ha).
  destruct Hx as [-> | ->]; repeat case_decide; subst; done.
Qed.

Lemma broadcast_shapes_l a r : expands a r → broadcast_shapes a r = Some r.
Proof.
  intros H. unfold broadcast_shapes. rewrite broadcast_rev_l by done.
  simpl. by rewrite reverse_involutive.
Qed.

Lemma broadcast_shapes_r a r : expands a r → broadcast_shapes r a = Some r.
Proof.
  intros H. unfold broadcast_shapes. rewrite broadcast_rev_r by done.
  simpl. by rewrite reverse_involutive.
Qed.

Lemma expands_rev_app a1 a2 r1 r2 :
  length a1 = length r1 → expands_rev a1 r1 → expands_rev a2 r2 →
  expands_rev (a1 ++ a2) (r1 ++ r2).
Proof.
  revert r1. induction a1 as [|x a1 IH]; intros [|y r1]; simpl; try done.
  intros [= Hl] [Hx Ha] H2. split; [done|]. by apply IH.
Qed.

Lemma expands_rev_ones l : expands_rev (replicate (length l) 1%nat) l.
Proof. induction l; simpl; auto. Qed.

(** The shape [[n; 1; ...; 1]] that [extract] produces expands to the shape
    of the sample when [n] is the batch size or 1. *)
Lemma expands_batch n B rest :
  n = B ∨ n = 1%nat → expands (n :: replicate (length rest) 1%nat) (B :: rest).
Proof.
  intros Hn. unfold expands. rewrite !reverse_cons, reverse_replicate.
  apply expands_rev_app.
  - by rewrite length_replicate, length_reverse.
  - rewrite <- (length_reverse rest). apply expands_rev_ones.
  - simpl. done.
Qed.

Lemma bidx_rev_app a1 a2 i1 i2 :
  length a1 = length i1 →
  bidx_rev (a1 ++ a2) (i1 ++ i2) = bidx_rev a1 i1 ++ bidx_rev a2 i2.
Proof.
  revert i1. induction a1 as [|x a1 IH]; intros [|i i1]; simpl; try done.
  intros [= Hl]. f_equal. by apply IH.
Qed.

Lemma bidx_rev_ones l : bidx_rev (replicate (length l) 1%nat) l = replicate (length l) 0%nat.
Proof. induction l; simpl; [done|]. by f_equal. Qed.

Lemma bidx_batch n i js :
  bidx (n :: replicate (length js) 1%nat) (i :: js)
  = (if decide (n = 1%nat) then 0%nat else i) :: replicate (length js) 0%nat.
Proof.
  unfold bidx. rewrite !reverse_cons, reverse_replicate.
  rewrite bidx_rev_app by (by rewrite length_replicate, length_reverse).
  rewrite <- (length_reverse js), bidx_rev_ones. simpl.
  by rewrite reverse_app, reverse_replicate.
Qed.

Lemma numel_ones k : numel (replicate k 1%nat) = 1%nat.
Proof. induction k; simpl; lia. Qed.

Lemma ravel_batch n k i : ravel (n :: replicate k 1%nat) (i :: replicate k 0%nat) = i.
Proof.
  simpl. rewrite numel_ones.
  assert (ravel (replicate k 1%nat) (replicate k 0%nat) = 0%nat) as ->; [|lia].
  induction k; simpl; [done|]. rewrite IHk. lia.
Qed.

(** Reading a tensor of shape [[n; 1; ...; 1]] at the index of a sample. *)
Lemma bitem_batch {A} `{!Inhabited A} (c : Tensor A) n i js :
  shape c = n :: replicate (length js) 1%nat →
  bitem c (i :: js) = nth (if decide (n = 1%nat) then 0%nat else i) (data c) inhabitant.
Proof.
  intros Hs. unfold bitem, item. rewrite Hs, bidx_batch. by rewrite ravel_batch.
Qed.

Lemma batch_of_length t n : batch_of t n → length (data t) = n.
Proof. intros [Hw [Hs | [Hs ->]]]; unfold wf in Hw; rewrite Hs in Hw; simpl in Hw; lia. Qed.

Lemma extract_Ok {A} (input : Tensor R) (t : Tensor Z) (x : Tensor A) n :
  ndim input = 1%nat → batch_of t n → timesteps_in_range input t →
  ∃ c, extract input t x = Ok c
    ∧ shape c = n :: replicate (ndim x - 1) 1%nat
    ∧ data c = (λ v, sched_at input v) <$> data t.
Proof.
  intros Hi Hb Hr. pose proof (batch_of_length t n Hb) as Hl.
  destruct Hb as [Hw Hs]. unfold extract, gather.
  set (t' := if decide (ndim t = 0%nat) then unsqueeze0 t else t).
  assert (Ht' : shape t' = [n] ∧ data t' = data t).
  { unfold t', ndim. destruct Hs as [Hs | [Hs ->]]; rewrite Hs; simpl; [done|].
    by rewrite Hs. }
  destruct Ht' as [Hs' Hd']. unfold ndim. rewrite Hs', Hd'. simpl.
  rewrite decide_True by (split; [exact Hi|done]).
  rewrite decide_True by exact Hr. simpl.
  unfold reshape. simpl. rewrite numel_ones, length_fmap, Hl.
  rewrite decide_True by lia. eexists. split; [done|]. done.
Qed.

Lemma binop_expand_l {A B C} `{!Inhabited A, !Inhabited B} (f : A → B → C) x y :
  expands (shape x) (shape y) → ∃ z, binop f x y = Ok z ∧ shape z = shape y.
Proof.
  intros H. unfold binop. rewrite broadcast_shapes_l by done. eexists. split; done.
Qed.

Lemma binop_same {A B C} `{!Inhabited A, !Inhabited B} (f : A → B → C) x y :
  shape x = shape y → ∃ z, binop f x y = Ok z ∧ shape z = shape y.
Proof. intros H. apply binop_expand_l. rewrite H. apply expands_refl. Qed.

Lemma bitem_item {A} `{!Inhabited A} (x : Tensor A) idx :
  valid_index (shape x) idx → bitem x idx = item x idx.
Proof. intros. unfold bitem. by rewrite bidx_self. Qed.

Lemma binop_Ok {A B C} `{!Inhabited A, !Inhabited B} (f : A → B → C) x y r :
  broadcast_shapes (shape x) (shape y) = Some r → ∃ z, binop f x y = Ok z ∧ shape z = r.
Proof. intros H. unfold binop. rewrite H. by eexists. Qed.

Lemma broadcast_to_self {A} `{!Inhabited A} (x : Tensor A) :
  wf x → broadcast_to x (shape x) = x.
Proof.
  intros Hw. apply tensor_ext; [apply broadcast_to_wf|done|done|].
  simpl. intros idx Hv. rewrite item_broadcast_to by done. by apply bitem_item.
Qed.

Lemma binop_same_data {A B C} `{!Inhabited A, !Inhabited B} (f : A → B → C) x y :
  wf x → wf y → shape x = shape y →
  binop f x y = Ok (mkTensor (shape x) (zip_with f (data x) (data y))).
Proof.
  intros Hx Hy Hs. unfold binop. rewrite broadcast_shapes_l by (rewrite Hs; apply expands_refl).
  rewrite <- Hs at 1 2. rewrite (broadcast_to_self x Hx).
  rewrite Hs at 2. rewrite (broadcast_to_self y Hy). by rewrite Hs.
Qed.


(** ** The monad *)

Section wp.
Context {G : Type} `{!Rng G}.
Implicit Types w : World G.

Lemma wp_bind {A B} (m : M G A) (f : A → M G B) w P :
  wp m w (λ a w', wp (f a) w' P) → wp (m ≫= f) w P.
Proof. unfold wp, mbind, M_bind. destruct (m w) as [[a|e] w']; done. Qed.

Lemma wp_mono {A} (m : M G A) w (P Q : A → World G → Prop) :
  wp m w P → (∀ a w', P a w' → Q a w') → wp m w Q.
Proof. unfold wp. destruct (m w) as [[a|e] w']; auto. Qed.

Lemma wp_eq {A} (m : M G A) w a w' (P : A → World G → Prop) :
  m w = (Ok a, w') → P a w' → wp m w P.
Proof. unfold wp. by intros ->. Qed.

Lemma wp_inv {A} (m : M G A) w (P : A → World G → Prop) :
  wp m w P → ∃ a w', m w = (Ok a, w') ∧ P a w'.
Proof. unfold wp. destruct (m w) as [[a|e] w']; [eauto|done]. Qed.

Lemma wp_ret {A} (a : A) w (P : A → World G → Prop) : P a w → wp (mret a) w P.
Proof. done. Qed.

Lemma wp_lift {A} (r : Res A) a w (P : A → World G → Prop) :
  r = Ok a → P a w → wp (lift r) w P.
Proof. by intros ->. Qed.

Lemma wp_get_module r w (P : DiffusionModule → World G → Prop) :
  P (modules w !!! r) w → wp (get_module r) w P.
Proof. done. Qed.

Lemma wp_get_network r w (P : Network → World G → Prop) :
  P (networks w !!! r) w → wp (get_network r) w P.
Proof. done. Qed.

Lemma wp_get_scheduler r w (P : BaseScheduler → World G → Prop) :
  P (schedulers w !!! r) w → wp (get_scheduler r) w P.
Proof. done. Qed.

Lemma wp_torch_randn s w (P : Tensor R → World G → Prop) :
  P (randn s (gen w)).1 (set_gen w (randn s (gen w)).2) → wp (torch_randn s) w P.
Proof. unfold wp, torch_randn. by destruct (randn s (gen w)). Qed.

Lemma wp_torch_randint lo hi s w (P : Tensor Z → World G → Prop) :
  (lo < hi)%Z →
  P (randint lo hi s (gen w)).1 (set_gen w (randint lo hi s (gen w)).2) →
  wp (torch_randint lo hi s) w P.
Proof.
  intros. unfold wp, torch_randint. rewrite decide_True by done.
  by destruct (randint lo hi s (gen w)).
Qed.

Lemma wp_device self w (P : Device → World G → Prop) :
  parameters (network_of w self) ≠ [] →
  (∀ d, P d w) → wp (device self) w P.
Proof.
  intros Hp HP. unfold device. apply wp_bind, wp_get_module, wp_bind, wp_get_network.
  fold (network_of w self). destruct (parameters (network_of w self)); [done|].
  by apply wp_ret.
Qed.

End wp.

Lemma same_objects_trans {G} (w1 w2 w3 : World G) :
  same_objects w1 w2 → same_objects w2 w3 → same_objects w1 w3.
Proof. unfold same_objects. intros (?&?&?&?) (?&?&?&?). repeat split; congruence. Qed.

Lemma same_objects_set_gen {G} (w : World G) g : same_objects w (set_gen w g).
Proof. done. Qed.

Lemma same_objects_scheduler_of {G} (w w' : World G) self :
  same_objects w w' → scheduler_of w' self = scheduler_of w self.
Proof. unfold scheduler_of. by intros (-> & _ & -> & _). Qed.

Lemma same_objects_network_of {G} (w w' : World G) self :
  same_objects w w' → network_of w' self = network_of w self.
Proof. unfold network_of. by intros (-> & -> & _ & _). Qed.

(** ** The schedule *)

Open Scope R_scope.

Lemma item_1d {A} `{!Inhabited A} (x : Tensor A) n i :
  shape x = [n] → item x [i] = nth i (data x) inhabitant.
Proof. unfold item. intros ->. simpl. f_equal. lia. Qed.

Lemma nth_fmap_seq {A} (f : nat → A) n i d :
  (i < n)%nat → nth i (f <$> seq 0 n) d = f i.
Proof. intros. by rewrite nth_lookup, list_lookup_fmap, lookup_seq_lt. Qed.

Lemma linspace_Ok a b T :
  (0 ≤ T)%Z →
  linspace a b T =
    Ok (mkTensor [Z.to_nat T]
          ((λ i, a + INR i * ((b - a) / INR (Z.to_nat T - 1))) <$> seq 0 (Z.to_nat T))).
Proof. intros. unfold linspace. case_decide; [lia|done]. Qed.

Lemma linspace_last a b n :
  (2 ≤ n)%nat → a + INR (n - 1) * ((b - a) / INR (n - 1)) = b.
Proof.
  intros Hn. assert (0 < INR (n - 1)) by (apply lt_0_INR; lia).
  field. lra.
Qed.

Lemma linspace_step_nonneg a b n : a <= b → 0 <= (b - a) / INR n.
Proof.
  intros. destruct n as [|n].
  - simpl. unfold Rdiv. rewrite Rinv_0. lra.
  - apply Rmult_le_pos; [lra|]. left. apply Rinv_0_lt_compat, lt_0_INR. lia.
Qed.

Lemma linspace_mono a b n i j :
  a <= b → (i ≤ j)%nat → a + INR i * ((b - a) / INR n) <= a + INR j * ((b - a) / INR n).
Proof.
  intros Hab Hij. pose proof (linspace_step_nonneg a b n Hab).
  apply le_INR in Hij. nra.
Qed.

Lemma linspace_upper a b n i :
  a <= b → (i ≤ n)%nat → a + INR i * ((b - a) / INR n) <= b.
Proof.
  intros Hab Hi. destruct n as [|n].
  - assert (i = 0)%nat as -> by lia. simpl. lra.
  - assert (0 < INR (S n)) by (apply lt_0_INR; lia).
    apply le_INR in Hi. 
    assert (INR i * ((b - a) / INR (S n)) <= b - a); [|lra].
    apply Rmult_le_reg_r with (INR (S n)); [done|].
    replace (INR i * ((b - a) / INR (S n)) * INR (S n)) with (INR i * (b - a)) by (field; lra).
    nra.
Qed.

Lemma linspace_lower a b n i : a <= b → a <= a + INR i * ((b - a) / INR n).
Proof.
  intros Hab. pose proof (linspace_step_nonneg a b n Hab). pose proof (pos_INR i). nra.
Qed.

Lemma cumprod_from_length acc l : length (cumprod_from acc l) = length l.
Proof. revert acc. induction l; simpl; auto. Qed.

Lemma cumprod_from_nth acc l i :
  (i < length l)%nat → nth i (cumprod_from acc l) 0 = acc * prod_list (take (S i) l).
Proof.
  revert acc i. induction l as [|a l IH]; intros acc i Hi; simpl in *; [lia|].
  destruct i as [|i].
  - rewrite take_0. simpl. lra.
  - rewrite IH by lia. simpl. lra.
Qed.

Lemma cumprod_from_bounds l acc i :
  Forall (λ a, 0 < a <= 1) l → 0 < acc → (i < length l)%nat →
  0 < nth i (cumprod_from acc l) 0 <= acc.
Proof.
  intros Hl. revert acc i. induction Hl as [|a l Ha Hl IH]; intros acc i Hacc Hi; simpl in *; [lia|].
  assert (0 < acc * a <= acc) by nra.
  destruct i as [|i]; [done|].
  destruct (IH (acc * a) i) as [H1 H2]; [lra|lia|]. lra.
Qed.

Lemma cumprod_from_nonincreasing l acc i j :
  Forall (λ a, 0 < a <= 1) l → 0 < acc → (i ≤ j < length l)%nat →
  nth j (cumprod_from acc l) 0 <= nth i (cumprod_from acc l) 0.
Proof.
  intros Hl. revert acc i j.
  induction Hl as [|a l Ha Hl IH]; intros acc i j Hacc Hij; simpl in *; [lia|].
  assert (0 < acc * a <= acc) by nra.
  destruct i as [|i], j as [|j]; try lia; try lra.
  - apply cumprod_from_bounds; [done|lra|lia].
  - apply IH; [lra|lia].
Qed.

Lemma cumprod_from_below l acc i :
  Forall (λ a, 0 < a < 1) l → 0 < acc → (i < length l)%nat →
  0 < nth i (cumprod_from acc l) 0 < acc.
Proof.
  intros Hl. revert acc i. induction Hl as [|a l Ha Hl IH]; intros acc i Hacc Hi; simpl in *; [lia|].
  assert (0 < acc * a < acc) by nra.
  destruct i as [|i]; [done|].
  destruct (IH (acc * a) i) as [H1 H2]; [lra|lia|]. lra.
Qed.

Lemma cumprod_from_decreasing l acc i j :
  Forall (λ a, 0 < a < 1) l → 0 < acc → (i < j < length l)%nat →
  nth j (cumprod_from acc l) 0 < nth i (cumprod_from acc l) 0.
Proof.
  intros Hl. revert acc i j.
  induction Hl as [|a l Ha Hl IH]; intros acc i j Hacc Hij; simpl in *; [lia|].
  assert (0 < acc * a < acc) by nra.
  destruct i as [|i], j as [|j]; try lia.
  - apply cumprod_from_below; [done|lra|lia].
  - apply IH; [lra|lia].
Qed.

Section schedule.
Context {G : Type} `{!Rng G}.
Implicit Types w : World G.

(** The tensor of betas that construction computes. *)
Lemma betas_Ok T b1 bT mode :
  (0 ≤ T)%Z → supported mode →
  ∃ b : Tensor R,
    (if decide (mode = "linear"%string) then linspace b1 bT T
     else if decide (mode = "quad"%string) then
       pow2 <$> linspace (R_sqrt.sqrt b1) (R_sqrt.sqrt bT) T
     else Raise (NotImplementedError (mode +:+ " is not implemented."))) = Ok b
    ∧ shape b = [Z.to_nat T]
    ∧ data b = (λ i, betas_at mode b1 bT (Z.to_nat T) i) <$> seq 0 (Z.to_nat T).
Proof.
  intros HT [-> | ->]; unfold betas_at.
  - rewrite !decide_True by done. rewrite linspace_Ok by done. eexists; split; [done|].
    split; [done|]. done.
  - rewrite !decide_False by done. rewrite decide_True by done.
    rewrite linspace_Ok by done. eexists; split; [done|]. split; [done|].
    simpl. rewrite <- list_fmap_compose. done.
Qed.

Lemma BaseScheduler_init_Ok T b1 bT mode w :
  (0 ≤ T)%Z → supported mode →
  ∃ vs, BaseScheduler_init T b1 bT mode w = (Ok (length (schedulers w)), add_scheduler w vs)
    ∧ num_train_timesteps vs = T
    ∧ timesteps vs = mkTensor [Z.to_nat T] (reverse (arange T))
    ∧ shape (betas vs) = [Z.to_nat T]
    ∧ data (betas vs) = (λ i, betas_at mode b1 bT (Z.to_nat T) i) <$> seq 0 (Z.to_nat T)
    ∧ alphas vs = rsub 1 (betas vs)
    ∧ alphas_cumprod vs = cumprod (alphas vs).
Proof.
  intros HT Hm. destruct (betas_Ok T b1 bT mode HT Hm) as (b & Hb & Hs & Hd).
  unfold BaseScheduler_init, mbind, M_bind, lift. rewrite Hb.
  eexists. split; [reflexivity|]. simpl. done.
Qed.

Lemma interp_first a b n : interp a b n 0 = a.
Proof. unfold interp. simpl. lra. Qed.

Lemma interp_last a b n : (2 ≤ n)%nat → interp a b n (n - 1) = b.
Proof. apply linspace_last. Qed.

Lemma interp_bounds a b n i : a <= b → (i < n)%nat → a <= interp a b n i <= b.
Proof.
  intros Hab Hi. unfold interp. split; [by apply linspace_lower|].
  apply linspace_upper; [done|lia].
Qed.

Lemma interp_mono a b n i j : a <= b → (i ≤ j)%nat → interp a b n i <= interp a b n j.
Proof. apply linspace_mono. Qed.

Lemma betas_at_first mode b1 bT n :
  (mode = "quad"%string → 0 <= b1 ∧ 0 <= bT) → supported mode →
  betas_at mode b1 bT n 0 = b1.
Proof.
  intros Hq [-> | ->]; unfold betas_at; simpl; rewrite !interp_first; [done|].
  apply sqrt_sqrt. by apply Hq.
Qed.

Lemma betas_at_last mode b1 bT n :
  (mode = "quad"%string → 0 <= b1 ∧ 0 <= bT) → supported mode → (2 ≤ n)%nat →
  betas_at mode b1 bT n (n - 1) = bT.
Proof.
  intros Hq [-> | ->] Hn; unfold betas_at; simpl; rewrite !interp_last by done; [done|].
  apply sqrt_sqrt. by apply Hq.
Qed.

Lemma betas_at_bounds mode b1 bT n i :
  supported mode → 0 <= b1 → b1 <= bT → (i < n)%nat →
  b1 <= betas_at mode b1 bT n i <= bT.
Proof.
  intros [-> | ->] H1 H2 Hi; unfold betas_at; simpl.
  - by apply interp_bounds.
  - assert (Hs : R_sqrt.sqrt b1 <= R_sqrt.sqrt bT) by (by apply sqrt_le_1_alt).
    pose proof (sqrt_pos b1) as Hp.
    destruct (interp_bounds _ _ n i Hs Hi) as [Hl Hu].
    pose proof (sqrt_sqrt b1 H1) as E1.
    pose proof (sqrt_sqrt bT ltac:(lra)) as ET.
    set (x := interp _ _ n i) in *.
    split; [rewrite <- E1 | rewrite <- ET]; apply Rmult_le_compat; lra.
Qed.

Lemma betas_at_mono mode b1 bT n i j :
  supported mode → (mode = "quad"%string → 0 <= b1) → b1 <= bT →
  (i ≤ j)%nat → (j < n)%nat →
  betas_at mode b1 bT n i <= betas_at mode b1 bT n j.
Proof.
  intros [-> | ->] H1 H2 Hij Hj; unfold betas_at; simpl.
  - by apply interp_mono.
  - specialize (H1 eq_refl).
    assert (Hs : R_sqrt.sqrt b1 <= R_sqrt.sqrt bT) by (by apply sqrt_le_1_alt).
    pose proof (sqrt_pos b1) as Hp.
    pose proof (interp_mono _ _ n i j Hs Hij).
    destruct (interp_bounds _ _ n i Hs ltac:(lia)) as [Hl Hu].
    apply Rmult_le_compat; lra.
Qed.

Lemma add_scheduler_lookup w vs :
  schedulers (add_scheduler w vs) !! length (schedulers w) = Some vs.
Proof. simpl. by rewrite lookup_app_r, Nat.sub_diag. Qed.

Lemma add_scheduler_lookup_total w vs :
  schedulers (add_scheduler w vs) !!! length (schedulers w) = vs.
Proof. apply list_lookup_total_correct, add_scheduler_lookup. Qed.

Lemma cumprod_item x n i :
  shape x = [n] → (i < length (data x))%nat →
  item (cumprod x) [i] = prod_list (take (S i) (data x)).
Proof.
  intros Hs Hi. rewrite (item_1d _ n) by done. simpl.
  rewrite cumprod_from_nth by done. lra.
Qed.

(** C4: for every number of timesteps [T >= 0] and boundary values,
    construction in mode "linear" or "quad" returns a scheduler whose betas,
    alphas and alphas_cumprod have length [T]; betas is the linear
    interpolation from beta_1 to beta_T in mode "linear" and the square of
    the linear interpolation of their square roots in mode "quad" (where
    the boundary values are taken non-negative, for the square roots to be
    real), so [betas[0] = beta_1] and [betas[T-1] = beta_T]; [alphas = 1 - betas]
    elementwise; alphas_cumprod is the running product of alphas. For
    T=1000, beta_1=1e-4, beta_T=0.02, mode "linear" this gives
    [betas[0] = 1e-4] and [betas[999] = 0.02]. *)
Theorem BaseScheduler_init_schedule T b1 bT mode w :
  (0 ≤ T)%Z → supported mode → (mode = "quad"%string → 0 <= b1 ∧ 0 <= bT) →
  wp (BaseScheduler_init T b1 bT mode) w (λ r w',
    let vs := schedulers w' !!! r in
    let n := Z.to_nat T in
    schedulers w' !! r = Some vs
    ∧ num_train_timesteps vs = T
    ∧ scheduler_ok vs
    ∧ (length (data (betas vs)) = n ∧ length (data (alphas vs)) = n
       ∧ length (data (alphas_cumprod vs)) = n)
    ∧ (mode = "linear"%string →
       ∀ i, (i < n)%nat → item (betas vs) [i] = interp b1 bT n i)
    ∧ (mode = "quad"%string →
       ∀ i, (i < n)%nat →
         item (betas vs) [i]
         = interp (R_sqrt.sqrt b1) (R_sqrt.sqrt bT) n i
           * interp (R_sqrt.sqrt b1) (R_sqrt.sqrt bT) n i)
    ∧ (∀ i, (i < n)%nat → item (alphas vs) [i] = 1 - item (betas vs) [i])
    ∧ (∀ i, (i < n)%nat →
         item (alphas_cumprod vs) [i] = prod_list (take (S i) (data (alphas vs))))
    ∧ ((1 ≤ n)%nat → item (betas vs) [0%nat] = b1)
    ∧ ((2 ≤ n)%nat → item (betas vs) [(n - 1)%nat] = bT)).
Proof.
  intros HT Hm Hq.
  destruct (BaseScheduler_init_Ok T b1 bT mode w HT Hm)
    as (vs & Hrun & HnT & Hts & Hsb & Hdb & Ha & Hc).
  eapply wp_eq; [exact Hrun|]. cbv zeta.
  rewrite add_scheduler_lookup_total. set (n := Z.to_nat T) in *.
  assert (Hlb : length (data (betas vs)) = n) by (by rewrite Hdb, length_fmap, length_seq).
  assert (Hla : length (data (alphas vs)) = n) by (by rewrite Ha; simpl; rewrite length_fmap).
  assert (Hlc : length (data (alphas_cumprod vs)) = n).
  { by rewrite Hc; simpl; rewrite cumprod_from_length. }
  assert (Hb : ∀ i, (i < n)%nat → item (betas vs) [i] = betas_at mode b1 bT n i).
  { intros i Hi. rewrite (item_1d _ n) by done. rewrite Hdb. by apply nth_fmap_seq. }
  split; [apply add_scheduler_lookup|]. split; [done|].
  split.
  { unfold scheduler_ok, wf. rewrite HnT. fold n. rewrite Hlb, Hla, Hlc.
    rewrite Hc, Ha; simpl. rewrite Hsb. simpl. repeat split; lia. }
  split; [done|].
  split; [intros ->; intros i Hi; by rewrite Hb|].
  split; [intros ->; intros i Hi; by rewrite Hb|].
  split.
  { intros i Hi. rewrite Ha. rewrite !(item_1d _ n) by done. simpl.
    rewrite !nth_lookup, list_lookup_fmap.
    destruct (lookup_lt_is_Some_2 (data (betas vs)) i) as [v ->]; [lia|done]. }
  split.
  { intros i Hi. rewrite Hc. apply (cumprod_item _ n); [by rewrite Ha|lia]. }
  split.
  - intros Hn. rewrite Hb by lia. by apply betas_at_first.
  - intros Hn. rewrite Hb by lia. by apply betas_at_last.
Qed.

(** C5, amended: for boundary values with [beta_1 < beta_T] (and
    [0 <= beta_1] in mode "quad", where the square root is taken), under
    modes "linear" and "quad" the constructed betas are non-decreasing; when
    moreover [0 <= beta_1] and [beta_T < 1], alphas_cumprod is non-increasing
    and lies in (0, 1], and it is strictly decreasing when [0 < beta_1], as
    for T=1000, beta_1=1e-4, beta_T=0.02, mode "linear". All in exact
    arithmetic. *)
Theorem schedule_monotone T b1 bT mode w :
  (0 ≤ T)%Z → supported mode → b1 < bT → (mode = "quad"%string → 0 <= b1) →
  wp (BaseScheduler_init T b1 bT mode) w (λ r w',
    let vs := schedulers w' !!! r in
    nondecreasing (betas vs)
    ∧ (0 <= b1 → bT < 1 →
       nonincreasing (alphas_cumprod vs)
       ∧ within_unit (alphas_cumprod vs)
       ∧ (0 < b1 → strictly_decreasing (alphas_cumprod vs)))).
Proof.
  intros HT Hm H1 Hq.
  destruct (BaseScheduler_init_Ok T b1 bT mode w HT Hm)
    as (vs & Hrun & HnT & Hts & Hsb & Hdb & Ha & Hc).
  eapply wp_eq; [exact Hrun|]. cbv zeta.
  rewrite add_scheduler_lookup_total. set (n := Z.to_nat T) in *.
  assert (Hlb : length (data (betas vs)) = n) by (by rewrite Hdb, length_fmap, length_seq).
  assert (Hla : length (data (alphas vs)) = n) by (by rewrite Ha; simpl; rewrite length_fmap).
  assert (Hlc : length (data (alphas_cumprod vs)) = n).
  { by rewrite Hc; simpl; rewrite cumprod_from_length. }
  assert (Hb : ∀ i, (i < n)%nat → item (betas vs) [i] = betas_at mode b1 bT n i).
  { intros i Hi. rewrite (item_1d _ n) by done. rewrite Hdb. by apply nth_fmap_seq. }
  split.
  { intros i j Hij. rewrite !Hb by lia. apply betas_at_mono; [done|done|lra|lia|lia]. }
  intros H0 H2.
  assert (Hal : ∀ lo, lo <= b1 →
            Forall (λ a, 0 < a <= 1 - lo) (data (alphas vs))).
  { intros lo Hlo. rewrite Ha. simpl. rewrite Hdb, <- list_fmap_compose.
    apply Forall_fmap, Forall_forall. intros i Hi%elem_of_seq. simpl.
    destruct (betas_at_bounds mode b1 bT n i) as [? ?]; [done|done|lra|lia|]. lra. }
  assert (Hsc : shape (alphas_cumprod vs) = [n]) by (by rewrite Hc, Ha).
  split; [|split].
  - intros i j Hij. rewrite !(item_1d _ n) by done. rewrite Hc. simpl.
    apply cumprod_from_nonincreasing; [|lra|lia].
    eapply Forall_impl; [apply (Hal 0); lra|]. simpl. intros; lra.
  - intros i Hi. rewrite !(item_1d _ n) by done. rewrite Hc. simpl.
    apply cumprod_from_bounds; [|lra|lia].
    eapply Forall_impl; [apply (Hal 0); lra|]. simpl. intros; lra.
  - intros Hpos i j Hij. rewrite !(item_1d _ n) by done. rewrite Hc. simpl.
    apply cumprod_from_decreasing; [|lra|lia].
    eapply Forall_impl; [apply (Hal b1); lra|]. simpl. intros; lra.
Qed.

End schedule.

(** ** The forward process *)

Section q_sample.
Context {G : Type} `{!Rng G, !RngLaws G}.
Implicit Types w : World G.

(** The forward equation, once the schedule scalars are extracted. *)
Lemma forward_equation (c x0 nz : Tensor R) n B rest :
  wf c → shape c = n :: replicate (length rest) 1%nat → n = B ∨ n = 1%nat →
  wf x0 → shape x0 = B :: rest → wf nz → shape nz = shape x0 →
  ∃ xt,
    (a ← mul (torch.sqrt c) x0;
     b ← mul (torch.sqrt (rsub 1 c)) nz;
     add a b) = Ok xt
    ∧ shape xt = shape x0 ∧ wf xt
    ∧ ∀ i js, valid_index (shape x0) (i :: js) →
        item xt (i :: js) =
          R_sqrt.sqrt (bitem c (i :: js)) * item x0 (i :: js)
          + R_sqrt.sqrt (1 - bitem c (i :: js)) * item nz (i :: js).
Proof.
  intros Hwc Hsc Hn Hwx Hsx Hwn Hsn.
  assert (Hex : expands (shape c) (shape x0)) by (rewrite Hsc, Hsx; by apply expands_batch).
  destruct (binop_expand_l Rmult (torch.sqrt c) x0) as (a & Ha & Hsa); [done|].
  destruct (binop_expand_l Rmult (torch.sqrt (rsub 1 c)) nz) as (b & Hb & Hsb);
    [by rewrite Hsn|].
  destruct (binop_same Rplus a b) as (xt & Hxt & Hsxt); [by rewrite Hsa, Hsb|].
  exists xt. unfold mul, add. rewrite Ha. simpl. rewrite Hb. simpl.
  split; [done|]. split; [by rewrite Hsxt, Hsb|]. split; [by eapply binop_wf|].
  intros i js Hv.
  rewrite (item_binop Rplus a b xt) by (done || by rewrite Hsxt, Hsb, Hsn).
  rewrite !bitem_item by (by rewrite ?Hsa, ?Hsb, ?Hsn).
  rewrite (item_binop Rmult _ _ a _ Ha) by (by rewrite Hsa).
  rewrite (item_binop Rmult _ _ b _ Hb) by (by rewrite Hsb, Hsn).
  rewrite !(bitem_item x0), !(bitem_item nz) by (by rewrite ?Hsn).
  unfold torch.sqrt, rsub.
  rewrite !(bitem_tmap _ _ (shape x0)); try done.
  by apply tmap_wf.
Qed.

Lemma extract_bitem {A} (input : Tensor R) (t : Tensor Z) (x : Tensor A) c n i js :
  shape c = n :: replicate (length js) 1%nat →
  data c = (λ v, sched_at input v) <$> data t →
  batch_of t n → n = 1%nat ∨ (i < n)%nat →
  bitem c (i :: js) = sched_at input (timestep_at t i).
Proof.
  intros Hs Hd Hb Hi. rewrite (bitem_batch c n) by done.
  pose proof (batch_of_length t n Hb) as Hl.
  unfold timestep_at. rewrite Hl, Hd.
  set (k := if decide (n = 1%nat) then 0%nat else i).
  assert (k < length (data t))%nat.
  { unfold k. case_decide; lia. }
  rewrite !nth_lookup, list_lookup_fmap.
  destruct (lookup_lt_is_Some_2 (data t) k) as [v Hv]; [done|].
  rewrite Hv. simpl. done.
Qed.

Lemma q_sample_wp self x0 t noise w B rest :
  let acp := alphas_cumprod (scheduler_of w self) in
  wf x0 → shape x0 = B :: rest →
  batch_of t B ∨ batch_of t 1 →
  ndim acp = 1%nat → timesteps_in_range acp t →
  (∀ nz, noise = Some nz → wf nz ∧ shape nz = shape x0) →
  wp (q_sample self x0 t noise) w (λ xt w',
    let nz := noise_used noise (shape x0) w in
    w' = match noise with
         | Some _ => w
         | None => set_gen w (randn (shape x0) (gen w)).2
         end
    ∧ shape xt = shape x0 ∧ wf xt
    ∧ ∀ i js, valid_index (shape x0) (i :: js) →
        item xt (i :: js) =
          R_sqrt.sqrt (sched_at acp (timestep_at t i)) * item x0 (i :: js)
          + R_sqrt.sqrt (1 - sched_at acp (timestep_at t i)) * item nz (i :: js)).
Proof.
  intros acp Hwx Hsx Ht Hnd Hr Hnz. unfold q_sample.
  set (nz := noise_used noise (shape x0) w).
  set (w_after := match noise with
                  | Some _ => w
                  | None => set_gen w (randn (shape x0) (gen w)).2
                  end).
  assert (Hnz' : wf nz ∧ shape nz = shape x0).
  { unfold nz, noise_used. destruct noise as [nz'|]; [by apply Hnz|].
    split; [apply randn_wf|apply randn_shape]. }
  destruct Hnz' as [Hwn Hsn].
  assert (Hso : scheduler_of w_after self = scheduler_of w self).
  { unfold w_after. by destruct noise. }
  apply wp_bind.
  apply wp_mono with (P := λ a w', a = nz ∧ w' = w_after).
  { destruct noise as [nz'|]; [by apply wp_ret|].
    unfold randn_like. by apply wp_torch_randn. }
  intros ? ? [-> ->].
  apply wp_bind, wp_get_module, wp_bind, wp_get_scheduler.
  fold (scheduler_of w_after self). rewrite Hso. fold acp.
  assert (∃ n, batch_of t n ∧ (n = B ∨ n = 1%nat)) as (n & Hb & Hn).
  { destruct Ht; eauto. }
  destruct (extract_Ok acp t x0 n Hnd Hb Hr) as (c & Hc & Hsc & Hdc).
  assert (Hk : (ndim x0 - 1 = length rest)%nat) by (unfold ndim; rewrite Hsx; simpl; lia).
  rewrite Hk in Hsc.
  assert (Hwc : wf c).
  { unfold wf. rewrite Hsc, Hdc, length_fmap. simpl. rewrite numel_ones.
    rewrite (batch_of_length t n Hb). lia. }
  apply wp_bind. eapply wp_lift; [exact Hc|].
  destruct (forward_equation c x0 nz n B rest) as (xt & Hxt & Hsxt & Hwxt & Hit); try done.
  eapply wp_lift; [exact Hxt|]. cbv zeta.
  split; [done|]. split; [done|]. split; [done|].
  intros i js Hv. rewrite Hit by done.
  assert (bitem c (i :: js) = sched_at acp (timestep_at t i)) as ->; [|done].
  rewrite Hsx in Hv. apply Forall2_cons in Hv as [Hi Hv].
  apply Forall2_length in Hv. rewrite <- Hv in Hsc.
  apply (extract_bitem acp t x0 c n i js); [done|done|done|].
  destruct Hn; [right; lia|by left].
Qed.

Lemma item_zeros s idx : item (zeros s) idx = 0.
Proof.
  unfold item, zeros. simpl.
  rewrite nth_lookup. destruct (replicate _ _ !! _) eqn:E; [|done].
  by apply lookup_replicate_1 in E as [-> _].
Qed.

(** C1: for clean data [x0] with a batch dimension, a timestep [t] that is
    a scalar or holds one timestep per example (each an index into the
    schedule), and noise given by the caller with the shape of [x0] or
    freshly drawn with that shape, [q_sample] returns [xt] with
    [xt = sqrt(alphas_cumprod[t]) * x0 + sqrt(1 - alphas_cumprod[t]) * noise],
    the schedule scalar of each example being used across its non-batch
    dimensions; with the noise fixed to zero,
    [xt = sqrt(alphas_cumprod[t]) * x0]. *)
Theorem q_sample_forward self x0 t noise w B rest :
  let acp := alphas_cumprod (scheduler_of w self) in
  wf x0 → shape x0 = B :: rest →
  batch_of t B ∨ batch_of t 1 →
  ndim acp = 1%nat → timesteps_in_range acp t →
  (∀ nz, noise = Some nz → wf nz ∧ shape nz = shape x0) →
  wp (q_sample self x0 t noise) w (λ xt w',
    let nz := noise_used noise (shape x0) w in
    w' = match noise with
         | Some _ => w
         | None => set_gen w (randn (shape x0) (gen w)).2
         end
    ∧ shape xt = shape x0
    ∧ (∀ i js, valid_index (shape x0) (i :: js) →
         item xt (i :: js) =
           R_sqrt.sqrt (sched_at acp (timestep_at t i)) * item x0 (i :: js)
           + R_sqrt.sqrt (1 - sched_at acp (timestep_at t i)) * item nz (i :: js))
    ∧ (noise = Some (zeros (shape x0)) →
       ∀ i js, valid_index (shape x0) (i :: js) →
         item xt (i :: js) =
           R_sqrt.sqrt (sched_at acp (timestep_at t i)) * item x0 (i :: js))).
Proof.
  intros acp Hwx Hsx Ht Hnd Hr Hnz.
  eapply wp_mono; [by apply (q_sample_wp self x0 t noise w B rest)|].
  cbv zeta. intros xt w' (Hw' & Hs & _ & Hit).
  split; [done|]. split; [done|]. split; [done|].
  intros -> i js Hv. rewrite Hit by done. unfold noise_used. rewrite item_zeros.
  by rewrite Rmult_0_r, Rplus_0_r.
Qed.

End q_sample.

(** ** The reverse step *)

Section p_sample.
Context {G : Type} `{!Rng G, !RngLaws G}.
Implicit Types w : World G.

(** The reverse equation, once the schedule scalars of shape [sc] are
    extracted; [r] is the shape that [sc] and the sample broadcast to. *)
Lemma reverse_equation_gen (ca cb cc xt eps nz mask : Tensor R) sc r :
  (wf ca ∧ shape ca = sc) → (wf cb ∧ shape cb = sc) → (wf cc ∧ shape cc = sc) →
  (wf mask ∧ shape mask = sc) →
  wf xt → (wf eps ∧ shape eps = shape xt) → (wf nz ∧ shape nz = shape xt) →
  broadcast_shapes sc (shape xt) = Some r →
  ∃ eps_factor x',
    div (rsub 1 ca) (torch.sqrt (rsub 1 cc)) = Ok eps_factor
    ∧ (c ← mul eps_factor eps;
       d ← sub xt c;
       mean ← mul (rdiv 1 (torch.sqrt ca)) d;
       e ← mul (torch.sqrt cb) nz;
       f ← mul mask e;
       add mean f) = Ok x'
    ∧ shape x' = r ∧ wf x'
    ∧ ∀ idx, valid_index r idx →
        item x' idx =
          1 / R_sqrt.sqrt (bitem ca idx)
          * (bitem xt idx
             - (1 - bitem ca idx) / R_sqrt.sqrt (1 - bitem cc idx) * bitem eps idx)
          + bitem mask idx * (R_sqrt.sqrt (bitem cb idx) * bitem nz idx).
Proof.
  intros [Hwa Hsa] [Hwb Hsb] [Hwc Hsc] [Hwm Hsm] Hwx [Hwe Hse] [Hwn Hsn] Hr.
  destruct (broadcast_shapes_expands _ _ _ Hr) as [Hec Hex].
  destruct (binop_same Rdiv (rsub 1 ca) (torch.sqrt (rsub 1 cc))) as (ef & Hef & Hsef);
    [simpl; congruence|].
  simpl in Hsef. rewrite Hsc in Hsef.
  destruct (binop_Ok Rmult ef eps r) as (c & Hc & Ec); [by rewrite Hsef, Hse|].
  destruct (binop_expand_l Rminus xt c) as (d & Hd & Ed); [by rewrite Ec|].
  rewrite Ec in Ed.
  destruct (binop_expand_l Rmult (rdiv 1 (torch.sqrt ca)) d) as (mean & Hmean & Emean).
  { simpl. by rewrite Hsa, Ed. }
  rewrite Ed in Emean.
  destruct (binop_Ok Rmult (torch.sqrt cb) nz r) as (e & He & Ee).
  { simpl. by rewrite Hsb, Hsn. }
  destruct (binop_expand_l Rmult mask e) as (f & Hf & Ef); [by rewrite Hsm, Ee|].
  rewrite Ee in Ef.
  destruct (binop_same Rplus mean f) as (x' & Hx' & Ex'); [congruence|].
  rewrite Ef in Ex'.
  exists ef, x'. unfold div, mul, sub, add in *.
  rewrite Hc; simpl. rewrite Hd; simpl. rewrite Hmean; simpl. rewrite He; simpl.
  rewrite Hf; simpl.
  split; [done|]. split; [done|]. split; [done|]. split; [by eapply binop_wf|].
  intros idx Hv.
  assert (Hrr : ∀ z : Tensor R, shape z = r → expands (shape z) r).
  { intros z ->. apply expands_refl. }
  rewrite <- (bitem_item x') by (by rewrite Ex').
  rewrite (bitem_binop Rplus _ _ x' r idx Hx') by auto.
  rewrite (bitem_binop Rmult _ _ mean r idx Hmean) by auto.
  rewrite (bitem_binop Rmult _ _ f r idx Hf) by auto.
  rewrite (bitem_binop Rminus _ _ d r idx Hd) by auto.
  rewrite (bitem_binop Rmult _ _ e r idx He) by auto.
  rewrite (bitem_binop Rmult _ _ c r idx Hc) by auto.
  rewrite (bitem_binop Rdiv _ _ ef r idx Hef) by (done || by rewrite Hsef).
  unfold rdiv, torch.sqrt, rsub.
  rewrite !(bitem_tmap _ _ r);
    try done; try (simpl; congruence); repeat apply tmap_wf; done.
Qed.

Lemma view_infer_mask (t : Tensor Z) n k :
  batch_of t n →
  ∃ mask, view_infer (ne0_float t) (replicate k 1%nat) = Ok mask
    ∧ wf mask ∧ shape mask = n :: replicate k 1%nat
    ∧ data mask = (λ v : Z, if decide (v = 0%Z) then 0 else 1) <$> data t.
Proof.
  intros Hb. pose proof (batch_of_length t n Hb) as Hl.
  unfold view_infer. rewrite numel_ones.
  assert (Hlm : length (data (ne0_float t)) = n) by (by simpl; rewrite length_fmap).
  rewrite Hlm, decide_False by lia. rewrite decide_True by (by rewrite Nat.mod_1_r).
  rewrite Nat.div_1_r. eexists. split; [done|]. split; [|done].
  unfold wf; simpl. rewrite length_fmap, numel_ones. lia.
Qed.

Lemma scheduler_ok_ranges vs t :
  scheduler_ok vs → timesteps_in_range (betas vs) t →
  (ndim (betas vs) = 1%nat ∧ ndim (alphas vs) = 1%nat ∧ ndim (alphas_cumprod vs) = 1%nat)
  ∧ timesteps_in_range (alphas vs) t ∧ timesteps_in_range (alphas_cumprod vs) t.
Proof.
  intros ((Hb & Ha & Hc) & (Hwb & Hwa & Hwc)) Hr.
  unfold ndim, timesteps_in_range, wf in *.
  rewrite Hb, Ha, Hc in *. simpl in *. split; [done|].
  rewrite Hwa, Hwc, <- Hwb. done.
Qed.

Lemma p_sample_wp_gen self xt t w n r :
  let vs := scheduler_of w self in
  let net := network_of w self in
  let tt := as_tensor t in
  wf xt → batch_of tt n →
  scheduler_ok vs → timesteps_in_range (betas vs) tt → network_ok net →
  (∀ z, t = t_int z → (z < 2 ^ 63)%Z ∧ parameters net ≠ []) →
  broadcast_shapes (n :: replicate (ndim xt - 1) 1%nat) (shape xt) = Some r →
  wp (p_sample self xt t) w (λ x' w',
    let nz := (randn (shape xt) (gen w)).1 in
    let eps := call net xt tt in
    w' = set_gen w (randn (shape xt) (gen w)).2
    ∧ shape x' = r ∧ wf x'
    ∧ ∀ i js, valid_index r (i :: js) → length js = (ndim xt - 1)%nat →
        n = 1%nat ∨ (i < n)%nat →
        item x' (i :: js) =
          1 / R_sqrt.sqrt (sched_at (alphas vs) (timestep_at tt i))
          * (bitem xt (i :: js)
             - (1 - sched_at (alphas vs) (timestep_at tt i))
               / R_sqrt.sqrt (1 - sched_at (alphas_cumprod vs) (timestep_at tt i))
               * bitem eps (i :: js))
          + mask_at tt i
            * (R_sqrt.sqrt (sched_at (betas vs) (timestep_at tt i)) * bitem nz (i :: js))).
Proof.
  intros vs net tt Hwx Hb Hok Hr Hnet Hint Hbr. unfold p_sample.
  destruct (scheduler_ok_ranges vs tt Hok Hr) as ((Hnb & Hna & Hnc) & Hra & Hrc).
  apply wp_bind. apply wp_mono with (P := λ a w', a = tt ∧ w' = w).
  { destruct t as [z|t']; [|by apply wp_ret].
    destruct (Hint z eq_refl) as [Hz Hp].
    apply wp_bind. eapply wp_lift.
    - unfold tensor1. rewrite decide_True; [done|].
      apply Forall_inv in Hr. simpl in Hr. lia.
    - apply wp_bind, wp_device; [done|]. intros _. by apply wp_ret. }
  intros ? ? [-> ->].
  apply wp_bind, wp_get_module, wp_bind, wp_get_scheduler. fold (scheduler_of w self). fold vs.
  destruct (extract_Ok (alphas_cumprod vs) tt xt n Hnc Hb Hrc) as (cc & Hcc & Hscc & Hdcc).
  destruct (extract_Ok (alphas vs) tt xt n Hna Hb Hra) as (ca & Hca & Hsca & Hdca).
  destruct (extract_Ok (betas vs) tt xt n Hnb Hb Hr) as (cb & Hcb & Hscb & Hdcb).
  set (k := (ndim xt - 1)%nat) in *.
  pose proof (batch_of_length tt n Hb) as Hl.
  assert (Hwf : ∀ c : Tensor R, shape c = n :: replicate k 1%nat →
            length (data c) = length (data tt) → wf c).
  { intros c Hs Hd. unfold wf. rewrite Hs, Hd. simpl. rewrite numel_ones. lia. }
  destruct (view_infer_mask tt n k Hb) as (mask & Hmask & Hwm & Hsm & Hdm).
  destruct (Hnet xt tt Hwx) as [Hwe Hse]. fold net in Hwe, Hse.
  destruct (reverse_equation_gen ca cb cc xt (call net xt tt)
              (randn (shape xt) (gen w)).1 mask (n :: replicate k 1%nat) r)
    as (ef & x' & Hef & Hx' & Hsx' & Hwx' & Hit); try done.
  { split; [apply Hwf; [done|by rewrite Hdca, length_fmap]|done]. }
  { split; [apply Hwf; [done|by rewrite Hdcb, length_fmap]|done]. }
  { split; [apply Hwf; [done|by rewrite Hdcc, length_fmap]|done]. }
  { split; [apply randn_wf|apply randn_shape]. }
  apply wp_bind. eapply wp_lift; [exact Hcc|].
  apply wp_bind. eapply wp_lift; [exact Hca|].
  apply wp_bind. eapply wp_lift; [exact Hcb|].
  apply wp_bind. eapply wp_lift; [exact Hef|].
  apply wp_bind, wp_get_network. fold (network_of w self). fold net.
  apply wp_bind. unfold randn_like. apply wp_torch_randn.
  apply wp_bind. eapply wp_lift; [exact Hmask|].
  eapply wp_lift; [exact Hx'|]. cbv zeta.
  split; [done|]. split; [done|]. split; [done|].
  intros i js Hv Hjs Hi. rewrite Hit by done. rewrite <- Hjs in *.
  rewrite (extract_bitem _ tt xt ca n i js), (extract_bitem _ tt xt cb n i js),
    (extract_bitem _ tt xt cc n i js) by done.
  f_equal. f_equal.
  rewrite (bitem_batch mask n) by done. unfold mask_at, timestep_at.
  rewrite Hl, Hdm.
  set (k' := if decide (n = 1%nat) then 0%nat else i).
  assert (k' < length (data tt))%nat.
  { unfold k'. case_decide; lia. }
  rewrite !nth_lookup, list_lookup_fmap.
  destruct (lookup_lt_is_Some_2 (data tt) k') as [v Hv']; [done|].
  rewrite Hv'. simpl. done.
Qed.

(** The usual case: the sample has a batch dimension and [t] holds one
    timestep, or one per example. *)
Lemma p_sample_wp self xt t w B rest :
  let vs := scheduler_of w self in
  let net := network_of w self in
  let tt := as_tensor t in
  wf xt → shape xt = B :: rest →
  batch_of tt B ∨ batch_of tt 1 →
  scheduler_ok vs → timesteps_in_range (betas vs) tt → network_ok net →
  (∀ z, t = t_int z → (z < 2 ^ 63)%Z ∧ parameters net ≠ []) →
  wp (p_sample self xt t) w (λ x' w',
    let nz := (randn (shape xt) (gen w)).1 in
    let eps := call net xt tt in
    w' = set_gen w (randn (shape xt) (gen w)).2
    ∧ shape x' = shape xt ∧ wf x'
    ∧ ∀ i js, valid_index (shape xt) (i :: js) →
        item x' (i :: js) =
          1 / R_sqrt.sqrt (sched_at (alphas vs) (timestep_at tt i))
          * (item xt (i :: js)
             - (1 - sched_at (alphas vs) (timestep_at tt i))
               / R_sqrt.sqrt (1 - sched_at (alphas_cumprod vs) (timestep_at tt i))
               * item eps (i :: js))
          + mask_at tt i
            * (R_sqrt.sqrt (sched_at (betas vs) (timestep_at tt i)) * item nz (i :: js))).
Proof.
  intros vs net tt Hwx Hsx Ht Hok Hr Hnet Hint.
  assert (∃ n, batch_of tt n ∧ (n = B ∨ n = 1%nat)) as (n & Hb & Hn).
  { destruct Ht; eauto. }
  assert (Hk : (ndim xt - 1 = length rest)%nat) by (unfold ndim; rewrite Hsx; simpl; lia).
  eapply wp_mono.
  { apply (p_sample_wp_gen self xt t w n (shape xt)); try done.
    apply broadcast_shapes_l. rewrite Hk, Hsx. by apply expands_batch. }
  cbv zeta. fold vs net tt. intros x' w' (Hw' & Hs' & Hwf' & Hit).
  split; [done|]. split; [done|]. split; [done|].
  intros i js Hv. 
  assert (Hi : (i < B)%nat ∧ length js = length rest).
  { rewrite Hsx in Hv. apply Forall2_cons in Hv as [Hi Hv].
    by apply Forall2_length in Hv. }
  destruct Hi as [Hi Hjs].
  rewrite Hit; [|done|lia|destruct Hn; [right; lia|by left]].
  rewrite !bitem_item; [done|by rewrite randn_shape|by destruct (Hnet xt tt Hwx) as [_ ->]|done].
Qed.

(** A sample without dimensions and one timestep: the result has one
    dimension of size 1. *)
Lemma p_sample_wp_scalar self xt t w :
  let vs := scheduler_of w self in
  let net := network_of w self in
  wf xt → shape xt = [] →
  scheduler_ok vs → (0 ≤ t < num_train_timesteps vs)%Z → network_ok net →
  wp (p_sample self xt (t_tensor (mkTensor [1%nat] [t]))) w (λ x' w',
    w' = set_gen w (randn (shape xt) (gen w)).2 ∧ shape x' = [1%nat] ∧ wf x').
Proof.
  intros vs net Hwx Hsx Hok Ht Hnet. subst vs net.
  eapply wp_mono.
  { apply (p_sample_wp_gen self xt (t_tensor (mkTensor [1%nat] [t])) w 1 [1%nat]); try done.
    - split; [done|by left].
    - destruct Hok as ((Hb & _) & (Hwb & _)). unfold timesteps_in_range, wf in *.
      rewrite Hwb, Hb. simpl. constructor; [lia|done].
    - unfold ndim. rewrite Hsx. reflexivity. }
  cbv zeta. by intros x' w' (? & ? & ? & _).
Qed.

Lemma valid_index_cons_inv B rest idx :
  valid_index (B :: rest) idx → ∃ i js, idx = i :: js ∧ valid_index (B :: rest) (i :: js).
Proof. intros Hv. destruct idx as [|i js]; [inversion Hv|eauto]. Qed.

Lemma mask_at_zero t i : timestep_at t i = 0%Z → mask_at t i = 0.
Proof. intros H. unfold mask_at. by rewrite decide_True. Qed.

Lemma mask_at_nonzero t i : timestep_at t i ≠ 0%Z → mask_at t i = 1.
Proof. intros H. unfold mask_at. by rewrite decide_False. Qed.

(** C2: for a noisy sample [xt] with a batch dimension and a timestep [t]
    (a plain integer, made a batch of size one, or a tensor), [p_sample]
    returns
    [(1/sqrt(alpha_t)) * (xt - ((1-alpha_t)/sqrt(1-alphas_cumprod_t)) * eps_theta)
     + mask * sqrt(beta_t) * noise],
    where [eps_theta] is the prediction of the network on [(xt, t)], [noise]
    is a fresh draw of the shape of [xt] and [mask] is 0 exactly when
    [t = 0] and 1 otherwise; hence when [t = 0] the result does not depend
    on the state of the generator. *)
Theorem p_sample_reverse self xt t w B rest :
  let vs := scheduler_of w self in
  let net := network_of w self in
  let tt := as_tensor t in
  wf xt → shape xt = B :: rest →
  batch_of tt B ∨ batch_of tt 1 →
  scheduler_ok vs → timesteps_in_range (betas vs) tt → network_ok net →
  (∀ z, t = t_int z → (z < 2 ^ 63)%Z ∧ parameters net ≠ []) →
  wp (p_sample self xt t) w (λ x' w',
    let nz := (randn (shape xt) (gen w)).1 in
    let eps_theta := call net xt tt in
    w' = set_gen w (randn (shape xt) (gen w)).2
    ∧ (∀ i js, valid_index (shape xt) (i :: js) →
       let alpha_t := sched_at (alphas vs) (timestep_at tt i) in
       let alphas_cumprod_t := sched_at (alphas_cumprod vs) (timestep_at tt i) in
       let beta_t := sched_at (betas vs) (timestep_at tt i) in
       item x' (i :: js) =
         1 / R_sqrt.sqrt alpha_t
         * (item xt (i :: js)
            - (1 - alpha_t) / R_sqrt.sqrt (1 - alphas_cumprod_t) * item eps_theta (i :: js))
         + mask_at tt i * (R_sqrt.sqrt beta_t * item nz (i :: js)))
    ∧ (∀ i, (timestep_at tt i = 0%Z → mask_at tt i = 0)
            ∧ (timestep_at tt i ≠ 0%Z → mask_at tt i = 1))
    ∧ ((∀ i, (i < B)%nat → timestep_at tt i = 0%Z) →
       ∀ w2, same_objects w w2 → wp (p_sample self xt t) w2 (λ x2 _, x2 = x'))).
Proof.
  intros vs net tt Hwx Hsx Ht Hok Hr Hnet Hint.
  eapply wp_mono; [by apply (p_sample_wp self xt t w B rest)|].
  cbv zeta. fold vs net tt. intros x' w' (Hw' & Hs & Hw & Hit).
  split; [done|]. split; [done|].
  split; [split; [apply mask_at_zero|apply mask_at_nonzero]|].
  intros Hz w2 Hso.
  eapply wp_mono.
  { apply (p_sample_wp self xt t w2 B rest); try done;
      rewrite ?(same_objects_scheduler_of w w2), ?(same_objects_network_of w w2); done. }
  cbv zeta. rewrite (same_objects_scheduler_of w w2), (same_objects_network_of w w2) by done.
  fold vs net tt. intros x2 w2' (_ & Hs2 & Hw2 & Hit2).
  apply tensor_ext; [done|done|congruence|].
  rewrite Hs2, Hsx. intros idx (i & js & -> & Hv)%valid_index_cons_inv.
  rewrite <- Hsx in Hv. rewrite Hit, Hit2 by done.
  assert (Hi : (i < B)%nat).
  { rewrite Hsx in Hv. by apply Forall2_cons in Hv as [Hi _]. }
  rewrite (mask_at_zero tt i) by auto. lra.
Qed.

End p_sample.

(** ** The reverse loop *)

Lemma arange_length T : length (arange T) = Z.to_nat T.
Proof. unfold arange. by rewrite length_fmap, length_seq. Qed.

Lemma arange_lookup T i : (i < Z.to_nat T)%nat → arange T !! i = Some (Z.of_nat i).
Proof. intros. unfold arange. by rewrite list_lookup_fmap, lookup_seq_lt. Qed.

Lemma descending_length T : length (descending T) = Z.to_nat T.
Proof. unfold descending. by rewrite length_reverse, arange_length. Qed.

Lemma descending_lookup T i :
  (i < Z.to_nat T)%nat → descending T !! i = Some (T - 1 - Z.of_nat i)%Z.
Proof.
  intros Hi. unfold descending. rewrite reverse_lookup by (rewrite arange_length; lia).
  rewrite arange_length, arange_lookup by lia. f_equal. lia.
Qed.

Lemma descending_range T t : t ∈ descending T → (0 ≤ t < T)%Z.
Proof.
  intros (i & Hi)%list_elem_of_lookup.
  pose proof (lookup_lt_Some _ _ _ Hi) as Hl. rewrite descending_length in Hl.
  rewrite descending_lookup in Hi by done. simplify_eq. lia.
Qed.

Section p_sample_loop.
Context {G : Type} `{!Rng G, !RngLaws G}.
Implicit Types w : World G.

Lemma for_each_steps self ts x w B rest :
  let vs := scheduler_of w self in
  let net := network_of w self in
  wf x → shape x = B :: rest →
  scheduler_ok vs → network_ok net → parameters net ≠ [] →
  Forall (λ t, 0 ≤ t < num_train_timesteps vs ∧ t < 2 ^ 63)%Z ts →
  wp (for_each ts
        (λ x0_pred t,
           t_tensor_ ← lift (tensor1 t);
           _ ← device self;
           p_sample self x0_pred (t_tensor t_tensor_)) x) w
     (λ x' w', run_steps self ts x w x' w' ∧ shape x' = B :: rest ∧ wf x'
               ∧ same_objects w w').
Proof.
  intros vs net Hw Hs Hok Hnet Hp Hts. revert x w vs net Hw Hs Hok Hnet Hp Hts.
  induction ts as [|t ts IH]; intros x w vs net Hw Hs Hok Hnet Hp Hts; simpl.
  - apply wp_ret. split; [constructor|done].
  - apply Forall_cons in Hts as [[Ht Ht63] Hts].
    apply wp_bind, wp_bind. eapply wp_lift.
    { unfold tensor1. rewrite decide_True by lia. done. }
    apply wp_bind, wp_device; [done|]. intros _.
    pose proof (p_sample_wp self x (t_tensor (mkTensor [1%nat] [t])) w B rest) as Hstep.
    cbv zeta in Hstep. fold vs net in Hstep.
    destruct (wp_inv _ _ _ (Hstep Hw Hs
      ltac:(right; split; [done|by left]) Hok
      ltac:(destruct Hok as ((Hb & _) & (Hwb & _)); unfold timesteps_in_range, wf in *;
            rewrite Hwb, Hb; simpl; constructor; [lia|done])
      Hnet ltac:(done))) as (x' & w' & Hrun & Hw' & Hs' & Hwf' & _).
    eapply wp_eq; [exact Hrun|].
    assert (Hso : same_objects w w') by (rewrite Hw'; apply same_objects_set_gen).
    eapply wp_mono.
    + apply IH; rewrite ?(same_objects_scheduler_of w w'), ?(same_objects_network_of w w');
        try done. congruence.
    + simpl. intros x'' w'' (Hsteps & Hs'' & Hwf'' & Hso'). split; [|split; [done|split]].
      * econstructor; done.
      * done.
      * by eapply same_objects_trans.
Qed.

Lemma for_each_steps_any self ts x w :
  let vs := scheduler_of w self in
  let net := network_of w self in
  wf x → scheduler_ok vs → network_ok net → parameters net ≠ [] →
  Forall (λ t, 0 ≤ t < num_train_timesteps vs ∧ t < 2 ^ 63)%Z ts →
  wp (for_each ts
        (λ x0_pred t,
           t_tensor_ ← lift (tensor1 t);
           _ ← device self;
           p_sample self x0_pred (t_tensor t_tensor_)) x) w
     (λ x' w', run_steps self ts x w x' w'
               ∧ (shape x ≠ [] → shape x' = shape x)
               ∧ same_objects w w').
Proof.
  intros vs net Hw Hok Hnet Hp Hts. destruct (shape x) as [|B rest] eqn:Hs.
  - destruct ts as [|t ts]; simpl.
    { apply wp_ret. split; [constructor|done]. }
    apply Forall_cons in Hts as [[Ht Ht63] Hts].
    apply wp_bind, wp_bind. eapply wp_lift.
    { unfold tensor1. rewrite decide_True by lia. done. }
    apply wp_bind, wp_device; [done|]. intros _.
    destruct (wp_inv _ _ _ (p_sample_wp_scalar self x t w Hw Hs Hok Ht Hnet))
      as (x' & w' & Hrun & Hw' & Hs' & Hwf').
    eapply wp_eq; [exact Hrun|].
    assert (Hso : same_objects w w') by (rewrite Hw'; apply same_objects_set_gen).
    eapply wp_mono.
    + apply (for_each_steps self ts x' w' 1 []);
        rewrite ?(same_objects_scheduler_of w w'), ?(same_objects_network_of w w'); done.
    + simpl. intros x'' w'' (Hsteps & _ & _ & Hso'). split; [|split; [done|]].
      * econstructor; done.
      * by eapply same_objects_trans.
  - eapply wp_mono; [by apply (for_each_steps self ts x w B rest)|].
    simpl. intros x' w' (? & ? & ? & ?). done.
Qed.

(** C3: for every requested shape, [p_sample_loop] draws noise of that
    shape and applies [p_sample] along [T-1, T-2, ..., 0], one step per
    timestep and each on the result of the step before, [T] steps in all,
    and returns the result of the last one; the objects of the world are
    left as they were. A shape with at least one dimension, such as
    [(N, 2)], is the shape of the result. *)
Theorem p_sample_loop_reverse self shape_ w :
  let vs := scheduler_of w self in
  let net := network_of w self in
  let T := num_train_timesteps vs in
  scheduler_ok vs → network_ok net → parameters net ≠ [] → (T ≤ 2 ^ 63)%Z →
  wp (p_sample_loop self shape_) w (λ x w',
    let x_T := (randn shape_ (gen w)).1 in
    let w_T := set_gen w (randn shape_ (gen w)).2 in
    shape x_T = shape_
    ∧ run_steps self (descending T) x_T w_T x w'
    ∧ (shape_ ≠ [] → shape x = shape_)
    ∧ same_objects w w')
  ∧ length (descending T) = Z.to_nat T
  ∧ (∀ i, (i < Z.to_nat T)%nat → descending T !! i = Some (T - 1 - Z.of_nat i)%Z).
Proof.
  intros vs net T Hok Hnet Hp HT. split; [|split].
  - unfold p_sample_loop. apply wp_bind, wp_torch_randn.
    set (x_T := (randn shape_ (gen w)).1).
    set (w_T := set_gen w (randn shape_ (gen w)).2).
    apply wp_bind, wp_device; [done|]. intros _.
    apply wp_bind, wp_get_module, wp_bind, wp_get_scheduler.
    fold (scheduler_of w_T self).
    assert (Hsx : shape x_T = shape_) by apply randn_shape.
    eapply wp_mono.
    + apply (for_each_steps_any self _ x_T w_T); try done.
      * apply randn_wf.
      * apply Forall_forall. intros t Ht%descending_range.
        change (num_train_timesteps (scheduler_of w_T self)) with T in *. lia.
    + simpl. rewrite Hsx. intros x w' (Hsteps & Hs & Hso). done.
  - apply descending_length.
  - apply descending_lookup.
Qed.

End p_sample_loop.

(** ** Shapes *)

Section shapes.
Context {G : Type} `{!Rng G, !RngLaws G}.
Implicit Types w : World G.

(** C9: when the timestep holds one entry or as many as the leading
    dimension of the sample, the result of [q_sample] has the shape of [x0]
    and the result of [p_sample] has the shape of [xt]: [extract] reshapes
    the gathered schedule scalars to [[len(t), 1, ..., 1]], which broadcasts
    to the shape of the sample. *)
Theorem sample_shapes_preserved self x t noise w B rest :
  let vs := scheduler_of w self in
  let net := network_of w self in
  let tt := as_tensor t in
  wf x → shape x = B :: rest →
  batch_of tt B ∨ batch_of tt 1 →
  scheduler_ok vs → timesteps_in_range (betas vs) tt → network_ok net →
  (∀ z, t = t_int z → (z < 2 ^ 63)%Z ∧ parameters net ≠ []) →
  (∀ nz, noise = Some nz → wf nz ∧ shape nz = shape x) →
  wp (q_sample self x tt noise) w (λ xt _, shape xt = shape x)
  ∧ wp (p_sample self x t) w (λ x_t_prev _, shape x_t_prev = shape x)
  ∧ (∀ buf, buf = betas vs ∨ buf = alphas vs ∨ buf = alphas_cumprod vs →
     ∃ c, extract buf tt x = Ok c
          ∧ shape c = length (data tt) :: replicate (ndim x - 1) 1%nat
          ∧ broadcast_shapes (shape c) (shape x) = Some (shape x)).
Proof.
  intros vs net tt Hwx Hsx Ht Hok Hr Hnet Hint Hnz.
  destruct (scheduler_ok_ranges vs tt Hok Hr) as ((Hnb & Hna & Hnc) & Hra & Hrc).
  split; [|split].
  - eapply wp_mono; [by apply (q_sample_wp self x tt noise w B rest)|].
    by intros xt w' (_ & Hs & _).
  - eapply wp_mono; [by apply (p_sample_wp self x t w B rest)|].
    by intros xt w' (_ & Hs & _).
  - intros buf Hbuf.
    assert (∃ n, batch_of tt n ∧ (n = B ∨ n = 1%nat)) as (n & Hb & Hn).
    { destruct Ht; eauto. }
    assert (ndim buf = 1%nat ∧ timesteps_in_range buf tt) as [Hnd Hrb].
    { destruct Hbuf as [-> | [-> | ->]]; done. }
    destruct (extract_Ok buf tt x n Hnd Hb Hrb) as (c & Hc & Hsc & _).
    exists c. split; [done|]. rewrite (batch_of_length tt n Hb). split; [done|].
    apply broadcast_shapes_l. rewrite Hsc, Hsx. unfold ndim. rewrite Hsx. simpl.
    rewrite Nat.sub_0_r. by apply expands_batch.
Qed.

End shapes.

(** ** The training loss *)

Lemma mse_loss_same input target :
  wf input → wf target → shape input = shape target →
  mse_loss input target = Ok (mse (data input) (data target)).
Proof.
  intros Hi Ht Hs. unfold mse_loss, sub. rewrite binop_same_data by done. simpl.
  f_equal. unfold mse. f_equal.
  - f_equal. generalize (data target). induction (data input) as [|p a IH];
      intros [|q b]; simpl; try done. f_equal. apply IH.
  - f_equal. rewrite length_zip_with. unfold wf in *. rewrite Hs in Hi. lia.
Qed.

Section compute_loss.
Context {G : Type} `{!Rng G, !RngLaws G}.
Implicit Types w : World G.

(** C7: for a batch [x0] of size [B], [compute_loss] draws [B] timesteps
    from [[0, T)] with [torch.randint], draws noise of the shape of [x0],
    forms [xt] by the equation of [q_sample] with that noise, and returns
    the mean of the squared differences between the prediction of the
    network on [(xt, t)] and the noise. *)
Theorem compute_loss_mse self x0 w B rest :
  let vs := scheduler_of w self in
  let net := network_of w self in
  let T := num_train_timesteps vs in
  let t := (randint 0 T [B] (gen w)).1 in
  let g1 := (randint 0 T [B] (gen w)).2 in
  let noise := (randn (shape x0) g1).1 in
  let g2 := (randn (shape x0) g1).2 in
  wf x0 → shape x0 = B :: rest → scheduler_ok vs → (0 < T)%Z → network_ok net →
  wp (compute_loss self x0) w (λ loss w',
    w' = set_gen w g2
    ∧ (shape t = [B] ∧ Forall (λ v, 0 ≤ v < T)%Z (data t))
    ∧ shape noise = shape x0
    ∧ ∃ xt,
        shape xt = shape x0
        ∧ (∀ i js, valid_index (shape x0) (i :: js) →
             let a := sched_at (alphas_cumprod vs) (timestep_at t i) in
             item xt (i :: js) =
               R_sqrt.sqrt a * item x0 (i :: js)
               + R_sqrt.sqrt (1 - a) * item noise (i :: js))
        ∧ loss = mse (data (call net xt t)) (data noise)).
Proof.
  intros vs net T t g1 noise g2 Hwx Hsx Hok HT Hnet. unfold compute_loss.
  apply wp_bind. eapply wp_lift; [by rewrite Hsx|].
  apply wp_bind, wp_get_module, wp_bind, wp_get_scheduler.
  fold (scheduler_of w self). fold vs T.
  apply wp_bind, wp_torch_randint; [done|]. fold t g1.
  apply wp_bind. unfold randn_like. apply wp_torch_randn. simpl gen. fold noise g2.
  set (w2 := set_gen (set_gen w g1) g2).
  assert (Hrange : Forall (λ v, 0 ≤ v < T)%Z (data t)) by (by apply randint_range).
  assert (Hst : shape t = [B]) by apply randint_shape.
  assert (Hbt : batch_of t B) by (split; [apply randint_wf|by left]).
  assert (Hwn : wf noise ∧ shape noise = shape x0).
  { split; [apply randn_wf|apply randn_shape]. }
  destruct (Hok) as ((Hb & Ha & Hc) & (Hwb & Hwa & Hwc)).
  pose proof (q_sample_wp self x0 t (Some noise) w2 B rest) as Hq.
  cbv zeta in Hq. change (scheduler_of w2 self) with vs in Hq.
  apply wp_bind. eapply wp_mono.
  { apply Hq; try done.
    - by left.
    - unfold ndim. by rewrite Hc.
    - unfold timesteps_in_range. eapply Forall_impl; [exact Hrange|]. simpl.
      unfold wf in Hwc. rewrite Hwc, Hc. simpl. fold T. lia.
    - by intros ? [= <-]. }
  cbv zeta. intros xt w' (-> & Hsxt & Hwxt & Hit).
  apply wp_bind, wp_get_network. change (networks w2 !!! network (modules w !!! self)) with net.
  destruct (Hnet xt t Hwxt) as [Hwp Hsp].
  eapply wp_lift.
  { apply mse_loss_same; [done|by destruct Hwn|]. destruct Hwn as [_ Hsn].
    by rewrite Hsp, Hsxt, Hsn. }
  split; [done|]. split; [done|]. split; [by destruct Hwn|].
  exists xt. split; [done|]. split; [|done]. intros i js Hv. by apply Hit.
Qed.

End compute_loss.

(** ** Persistence *)

Section persistence.
Context {G : Type} `{!Rng G}.
Implicit Types w : World G.

Lemma insert_snoc {A} (l : list A) x y : <[length l := y]> (l ++ [x]) = l ++ [y].
Proof. rewrite insert_app_r_alt by lia. by rewrite Nat.sub_diag. Qed.

Lemma lookup_total_snoc {A} `{!Inhabited A} (l : list A) x : (l ++ [x]) !!! length l = x.
Proof. apply list_lookup_total_middle. done. Qed.

Lemma load_run self path w dic :
  files w !! path = Some dic → (self < length (modules w))%nat →
  load self path w = (load_result dic, loaded_world w self dic).
Proof.
  intros Hf Hself. unfold load, torch_load, mbind, M_bind. rewrite Hf.
  unfold new_network, new_scheduler, mret, M_ret, get_module, set_module. simpl.
  rewrite list_lookup_total_insert_eq by done. simpl.
  rewrite list_insert_insert_eq.
  unfold load_state_dict, mbind, M_bind, get_module, get_network, get_scheduler,
    set_network, set_scheduler. simpl.
  rewrite list_lookup_total_insert_eq by done. simpl.
  rewrite !lookup_total_snoc, !insert_snoc.
  unfold load_result, loaded_world. simpl.
  case_decide; done.
Qed.

Lemma load_missing self path w :
  files w !! path = None → load self path w = (Raise FileNotFoundError, w).
Proof. intros Hf. unfold load, torch_load, mbind, M_bind. by rewrite Hf. Qed.

Lemma save_run self path w :
  save self path w =
    (Ok (), mkWorld (modules w) (networks w) (schedulers w)
              (<[path := mkCheckpoint (network_of w self) (scheduler_of w self)
                           (state_dict_at (network_of w self) (scheduler_of w self))]>
                 (files w)) (gen w)).
Proof. done. Qed.

Lemma state_dict_at_to_cpu net vs : state_dict_at (to_cpu net) vs = state_dict_at net vs.
Proof.
  unfold state_dict_at, to_cpu. simpl. do 4 f_equal.
  rewrite <- list_fmap_compose. by apply list_fmap_ext.
Qed.

Lemma load_from_same sd key cur : sd !! key = Some cur → load_from sd key cur = cur.
Proof. intros H. unfold load_from. rewrite H. by case_decide. Qed.

Lemma state_dict_at_betas net vs :
  state_dict_at net vs !! "var_scheduler.betas"%string = Some (betas vs).
Proof. unfold state_dict_at. by rewrite lookup_insert_eq. Qed.

Lemma state_dict_at_alphas net vs :
  state_dict_at net vs !! "var_scheduler.alphas"%string = Some (alphas vs).
Proof.
  unfold state_dict_at. rewrite lookup_insert_ne by done. by rewrite lookup_insert_eq.
Qed.

Lemma state_dict_at_alphas_cumprod net vs :
  state_dict_at net vs !! "var_scheduler.alphas_cumprod"%string = Some (alphas_cumprod vs).
Proof.
  unfold state_dict_at. rewrite !lookup_insert_ne by done. by rewrite lookup_insert_eq.
Qed.

#[local] Instance network_key_inj : Inj (=) (=) (λ n : string, "network." +:+ n).
Proof. intros a b E. simpl in E. by simplify_eq. Qed.

Lemma state_dict_at_parameter net vs name p :
  NoDup (parameters net).*1 → (name, p) ∈ parameters net →
  state_dict_at net vs !! ("network." +:+ name) = Some (p_data p).
Proof.
  intros Hnd Hin. unfold state_dict_at.
  rewrite !lookup_insert_ne by (simpl; discriminate).
  apply elem_of_list_to_map_1.
  - assert (E : ((λ np : string * nn_Parameter, ("network." +:+ np.1, p_data np.2))
                   <$> parameters net).*1
                = (λ n : string, "network." +:+ n) <$> (parameters net).*1).
    { clear. induction (parameters net) as [|np l IH]; [done|].
      rewrite !fmap_cons. by rewrite IH. }
    rewrite E. by apply (NoDup_fmap_2 _).
  - apply (list_elem_of_fmap_2 (λ np : string * nn_Parameter, ("network." +:+ np.1, p_data np.2))
             _ _ Hin).
Qed.

Lemma load_into_scheduler_same net vs :
  load_into_scheduler (state_dict_at net vs) vs = vs.
Proof.
  unfold load_into_scheduler.
  rewrite !load_from_same
    by (apply state_dict_at_betas || apply state_dict_at_alphas
        || apply state_dict_at_alphas_cumprod).
  by destruct vs.
Qed.

Lemma call_load_into_network net vs x t :
  NoDup (parameters net).*1 →
  call (load_into_network (state_dict_at net vs) (to_cpu net)) x t = call net x t.
Proof.
  intros Hnd. unfold call, load_into_network, to_cpu. simpl. f_equal.
  rewrite <- !list_fmap_compose. apply Forall_fmap_ext_1.
  apply Forall_forall. intros [name p] Hin. simpl.
  apply load_from_same. by apply state_dict_at_parameter.
Qed.

Lemma load_result_saved net vs :
  load_result (mkCheckpoint net vs (state_dict_at net vs)) = Ok ().
Proof.
  unfold load_result. simpl. rewrite state_dict_at_to_cpu.
  rewrite decide_True; [done|]. split; [done|].
  intros k v Hk. by rewrite Hk.
Qed.

Lemma scheduler_of_loaded w self dic :
  (self < length (modules w))%nat →
  scheduler_of (loaded_world w self dic) self
  = load_into_scheduler (state_dict_of dic) (hparams_var_scheduler dic).
Proof.
  intros Hs. unfold scheduler_of, loaded_world. simpl.
  rewrite list_lookup_total_insert_eq by done. simpl. apply lookup_total_snoc.
Qed.

Lemma network_of_loaded w self dic :
  (self < length (modules w))%nat →
  network_of (loaded_world w self dic) self
  = load_into_network (state_dict_of dic) (to_cpu (hparams_network dic)).
Proof.
  intros Hs. unfold network_of, loaded_world. simpl.
  rewrite list_lookup_total_insert_eq by done. simpl. apply lookup_total_snoc.
Qed.

(** C8: [save] to a path followed by [load] from that path leaves the
    loading module with scheduler buffers (betas, alphas, alphas_cumprod)
    equal to those of the saved module and with a network that returns the
    same output on every input. *)
Theorem save_load_roundtrip self self' path w :
  let vs := scheduler_of w self in
  let net := network_of w self in
  (self' < length (modules w))%nat → NoDup (parameters net).*1 →
  wp (_ ← save self path; load self' path) w (λ _ w',
    let vs' := scheduler_of w' self' in
    let net' := network_of w' self' in
    (betas vs' = betas vs ∧ alphas vs' = alphas vs
     ∧ alphas_cumprod vs' = alphas_cumprod vs)
    ∧ (∀ x t, call net' x t = call net x t)).
Proof.
  intros vs net Hself Hnd. apply wp_bind. eapply wp_eq; [apply save_run|].
  fold vs net. set (dic := mkCheckpoint net vs (state_dict_at net vs)).
  unfold wp. rewrite (load_run self' path _ dic) by (apply lookup_insert_eq || done).
  unfold dic at 1. rewrite load_result_saved. cbv zeta.
  rewrite scheduler_of_loaded, network_of_loaded by done.
  unfold dic. cbn [state_dict_of hparams_var_scheduler hparams_network].
  rewrite load_into_scheduler_same. split; [done|].
  intros x t. by apply call_load_into_network.
Qed.

End persistence.

(** ** Frames and errors *)

Lemma library_result_Ok {A} (a : A) : library_result (Ok a).
Proof. done. Qed.

Lemma library_result_bind {A B} (r : Res A) (f : A → Res B) :
  library_result r → (∀ a, library_result (f a)) → library_result (r ≫= f).
Proof.
  intros Hr Hf. destruct r as [a|e]; [apply Hf|].
  intros msg E. apply (Hr msg). by injection E as ->.
Qed.

Lemma library_result_binop {A B C} `{!Inhabited A, !Inhabited B} (f : A → B → C) x y :
  library_result (binop f x y).
Proof. unfold binop. by destruct (broadcast_shapes _ _). Qed.

Lemma library_result_gather input index : library_result (gather input index).
Proof. unfold gather. repeat case_decide; done. Qed.

Lemma library_result_reshape {A} (x : Tensor A) s : library_result (reshape x s).
Proof. unfold reshape. by case_decide. Qed.

Lemma library_result_view_infer {A} (x : Tensor A) s : library_result (view_infer x s).
Proof. unfold view_infer. repeat case_decide; done. Qed.

Lemma library_result_tensor1 t : library_result (tensor1 t).
Proof. unfold tensor1. by case_decide. Qed.

Lemma library_result_extract {A} input t (x : Tensor A) : library_result (extract input t x).
Proof.
  unfold extract. apply library_result_bind; [apply library_result_gather|].
  intros out. destruct (shape _); [done|apply library_result_reshape].
Qed.

Lemma library_result_mse_loss a b : library_result (mse_loss a b).
Proof.
  unfold mse_loss. apply library_result_bind; [apply library_result_binop|done].
Qed.

Create HintDb tame.
#[global] Hint Resolve library_result_Ok library_result_binop library_result_gather
  library_result_reshape library_result_view_infer library_result_tensor1
  library_result_extract library_result_mse_loss : tame.

Section tame.
Context {G : Type} `{!Rng G}.
Implicit Types w : World G.

Lemma tame_ret {A} (a : A) : tame (mret a : M G A).
Proof. done. Qed.

Lemma tame_bind {A B} (m : M G A) (f : A → M G B) :
  tame m → (∀ a, tame (f a)) → tame (m ≫= f).
Proof.
  intros Hm Hf w. unfold mbind, M_bind. destruct (Hm w) as [H1 H2].
  destruct (m w) as [[a|e] w']; simpl in *.
  - destruct (Hf a w') as [H3 H4]. split; [congruence|done].
  - split; [done|]. intros msg E. apply (H2 msg). by injection E as ->.
Qed.

Lemma tame_lift {A} (r : Res A) : library_result r → tame (lift r : M G A).
Proof. done. Qed.

Lemma tame_get_module r : tame (get_module r : M G _).
Proof. done. Qed.
Lemma tame_get_network r : tame (get_network r : M G _).
Proof. done. Qed.
Lemma tame_get_scheduler r : tame (get_scheduler r : M G _).
Proof. done. Qed.
Lemma tame_new_module m : tame (new_module m : M G _).
Proof. done. Qed.
Lemma tame_torch_save dic p : tame (torch_save dic p : M G _).
Proof. done. Qed.

Lemma tame_torch_randn s : tame (torch_randn s).
Proof. intros w. unfold torch_randn. by destruct (randn s (gen w)). Qed.

Lemma tame_torch_randint lo hi s : tame (torch_randint lo hi s).
Proof.
  intros w. unfold torch_randint. case_decide; [|done].
  by destruct (randint lo hi s (gen w)).
Qed.

Lemma tame_for_each {A B} (l : list A) (body : B → A → M G B) x :
  (∀ x a, tame (body x a)) → tame (for_each l body x).
Proof.
  intros Hb. revert x. induction l as [|a l IH]; intros x; simpl; [apply tame_ret|].
  apply tame_bind; auto.
Qed.

Ltac tame_steps :=
  repeat first
    [ solve [auto with tame]
    | apply tame_ret | apply tame_get_module | apply tame_get_network
    | apply tame_get_scheduler | apply tame_new_module | apply tame_torch_save
    | apply tame_torch_randn | apply tame_torch_randint
    | apply tame_for_each; intros
    | apply tame_lift
    | apply tame_bind; [|intros]
    | apply library_result_bind; [|intros] ].

Lemma tame_device self : tame (device self : M G _).
Proof.
  unfold device. tame_steps. destruct (parameters _); tame_steps. done.
Qed.
#[local] Hint Resolve tame_device : tame.

Lemma tame_q_sample self x0 t noise : tame (q_sample self x0 t noise : M G _).
Proof.
  unfold q_sample, randn_like, mul, add. destruct noise; tame_steps.
Qed.
#[local] Hint Resolve tame_q_sample : tame.

Lemma tame_p_sample self xt t : tame (p_sample self xt t : M G _).
Proof.
  unfold p_sample, randn_like, mul, add, sub, div. destruct t; tame_steps.
Qed.
#[local] Hint Resolve tame_p_sample : tame.

Lemma tame_p_sample_loop self s : tame (p_sample_loop self s : M G _).
Proof. unfold p_sample_loop. tame_steps. Qed.

Lemma tame_compute_loss self x0 : tame (compute_loss self x0 : M G _).
Proof.
  unfold compute_loss, randn_like. tame_steps. by destruct (shape x0).
Qed.

Lemma tame_save self p : tame (save self p : M G _).
Proof. unfold save, state_dict. tame_steps. Qed.

Lemma tame_DiffusionModule_init n s : tame (DiffusionModule_init n s : M G _).
Proof. unfold DiffusionModule_init. tame_steps. Qed.

Lemma load_library_result self path w : library_result (load self path w).1.
Proof.
  unfold load, torch_load, mbind, M_bind. destruct (files w !! path) as [dic|]; [|done].
  unfold new_network, new_scheduler, mret, M_ret, get_module, set_module,
    load_state_dict, mbind, M_bind, get_module, get_network, get_scheduler,
    set_network, set_scheduler. simpl.
  case_decide; done.
Qed.

Lemma load_keeps self path w a vs :
  (self < length (modules w))%nat →
  schedulers w !! a = Some vs → schedulers (load self path w).2 !! a = Some vs.
Proof.
  intros Hs Ha. destruct (files w !! path) as [dic|] eqn:Hf.
  - rewrite (load_run self path w dic Hf Hs). simpl. by apply lookup_app_l_Some.
  - by rewrite (load_missing self path w Hf).
Qed.

Lemma BaseScheduler_init_keeps T b1 bT mode w a vs :
  schedulers w !! a = Some vs →
  schedulers (BaseScheduler_init T b1 bT mode w).2 !! a = Some vs.
Proof.
  intros Ha. unfold BaseScheduler_init, mbind, M_bind, lift.
  destruct (if decide (mode = "linear"%string) then _ else _) as [b|e]; [|done].
  simpl. by apply lookup_app_l_Some.
Qed.

Lemma BaseScheduler_init_unsupported T b1 bT mode w :
  ¬ supported mode →
  BaseScheduler_init T b1 bT mode w
  = (Raise (NotImplementedError (mode +:+ " is not implemented.")), w).
Proof.
  intros Hm. unfold BaseScheduler_init, mbind, M_bind, lift.
  rewrite !decide_False; [done| |]; intros ->; apply Hm; [by right|by left].
Qed.

Lemma BaseScheduler_init_supported T b1 bT mode w :
  supported mode → library_result (BaseScheduler_init T b1 bT mode w).1.
Proof.
  intros Hm. unfold BaseScheduler_init, mbind, M_bind, lift, linspace.
  destruct Hm as [-> | ->]; simpl; case_decide; done.
Qed.

Lemma discard_world {A} (m : M G A) w : ((_ ← m; mret ()) w).2 = (m w).2.
Proof. unfold mbind, M_bind. by destruct (m w) as [[a|e] w']. Qed.

Lemma discard_raise {A} (m : M G A) w e :
  ((_ ← m; mret ()) w).1 = Raise e → (m w).1 = Raise e.
Proof.
  unfold mbind, M_bind. destruct (m w) as [[a|e'] w']; simpl; [done|]. by intros [= ->].
Qed.

Lemma run_keeps o w a vs :
  op_wf o w → schedulers w !! a = Some vs → schedulers (run o w).2 !! a = Some vs.
Proof.
  intros Hwf Ha.
  destruct o as [T b1 bT mode|n s|self x0 t noise|self xt t|self s|self x0|self p|self p];
    unfold run; rewrite ?discard_world.
  - by apply BaseScheduler_init_keeps.
  - by rewrite (proj1 (tame_DiffusionModule_init n s w)).
  - by rewrite (proj1 (tame_q_sample self x0 t noise w)).
  - by rewrite (proj1 (tame_p_sample self xt t w)).
  - by rewrite (proj1 (tame_p_sample_loop self s w)).
  - by rewrite (proj1 (tame_compute_loss self x0 w)).
  - by rewrite (proj1 (tame_save self p w)).
  - apply load_keeps; [|done]. by apply Hwf.
Qed.

Lemma run_unsupported o w msg :
  (run o w).1 = Raise (NotImplementedError msg) →
  ∃ T b1 bT mode, o = op_BaseScheduler T b1 bT mode ∧ ¬ supported mode.
Proof.
  destruct o as [T b1 bT mode|n s|self x0 t noise|self xt t|self s|self x0|self p|self p];
    unfold run; intros Hr; try apply discard_raise in Hr.
  - exists T, b1, bT, mode. split; [done|]. intros Hm.
    by apply (BaseScheduler_init_supported T b1 bT mode w Hm msg).
  - by apply (proj2 (tame_DiffusionModule_init n s w)) in Hr.
  - by apply (proj2 (tame_q_sample self x0 t noise w)) in Hr.
  - by apply (proj2 (tame_p_sample self xt t w)) in Hr.
  - by apply (proj2 (tame_p_sample_loop self s w)) in Hr.
  - by apply (proj2 (tame_compute_loss self x0 w)) in Hr.
  - by apply (proj2 (tame_save self p w)) in Hr.
  - by apply (load_library_result self p w) in Hr.
Qed.

(** C10: after construction with [num_train_timesteps = T], [timesteps] is
    the strictly descending sequence [[T-1, T-2, ..., 0]] (within int64),
    and no operation of the module changes a scheduler object that exists:
    its [timesteps] and its buffers stay what they were. *)
Theorem timesteps_fixed T b1 bT mode w o w0 :
  (0 ≤ T)%Z → supported mode → op_wf o w0 →
  wp (BaseScheduler_init T b1 bT mode) w (λ r w',
    let vs := schedulers w' !!! r in
    timesteps vs = mkTensor [Z.to_nat T] (descending T)
    ∧ (∀ i, (i < Z.to_nat T)%nat → item (timesteps vs) [i] = (T - 1 - Z.of_nat i)%Z)
    ∧ (∀ i j, (i < j < Z.to_nat T)%nat →
         (item (timesteps vs) [j] < item (timesteps vs) [i])%Z)
    ∧ ((T ≤ 2 ^ 63)%Z → Forall (λ v, 0 ≤ v < 2 ^ 63)%Z (data (timesteps vs))))
  ∧ (∀ a vs, schedulers w0 !! a = Some vs → schedulers (run o w0).2 !! a = Some vs).
Proof.
  intros HT Hm Hwf. split.
  - destruct (BaseScheduler_init_Ok T b1 bT mode w HT Hm)
      as (vs & Hrun & HnT & Hts & _).
    eapply wp_eq; [exact Hrun|]. cbv zeta. rewrite add_scheduler_lookup_total.
    assert (Hi : ∀ i, (i < Z.to_nat T)%nat →
              item (timesteps vs) [i] = (T - 1 - Z.of_nat i)%Z).
    { intros i Hi. rewrite (item_1d _ (Z.to_nat T)) by (by rewrite Hts).
      rewrite Hts. simpl. rewrite nth_lookup. fold (descending T).
      by rewrite descending_lookup. }
    split; [done|]. split; [done|]. split.
    + intros i j Hij. rewrite !Hi by lia. lia.
    + intros H63. rewrite Hts. simpl. apply Forall_forall.
      intros v Hv%descending_range. lia.
  - intros a vs Ha. by apply run_keeps.
Qed.

(** C6, amended: construction raises the unsupported-configuration error
    if and only if the mode is neither "linear" nor "quad"; it raises it at
    once and the world is left without a new scheduler object; no other
    operation of the module raises this error. (The operations do let the
    errors of the tensor library and of the file system through.) *)
Theorem unsupported_mode_error T b1 bT mode w o w0 :
  ((∃ msg w', BaseScheduler_init T b1 bT mode w = (Raise (NotImplementedError msg), w'))
   ↔ ¬ supported mode)
  ∧ (¬ supported mode →
     BaseScheduler_init T b1 bT mode w
     = (Raise (NotImplementedError (mode +:+ " is not implemented.")), w))
  ∧ (∀ msg, (run o w0).1 = Raise (NotImplementedError msg) →
     ∃ T' b1' bT' mode', o = op_BaseScheduler T' b1' bT' mode' ∧ ¬ supported mode').
Proof.
  split; [|split].
  - split.
    + intros (msg & w' & Hr) Hm.
      apply (BaseScheduler_init_supported T b1 bT mode w Hm msg). by rewrite Hr.
    + intros Hm. eexists _, _. by apply BaseScheduler_init_unsupported.
  - apply BaseScheduler_init_unsupported.
  - intros msg. apply run_unsupported.
Qed.

End tame.

(** ** Further properties of the code *)

(** *** Errors and edge cases *)

Lemma extract_rank_error {A} (input : Tensor R) (t : Tensor Z) (x : Tensor A) :
  (2 ≤ ndim t)%nat →
  extract input t x
  = Raise (RuntimeError "Index tensor must have the same number of dimensions as input tensor").
Proof.
  intros Ht. unfold extract, gather.
  rewrite (decide_False (P := ndim t = 0%nat)) by lia.
  rewrite decide_False by lia. done.
Qed.

Lemma extract_range {A} (input : Tensor R) (t : Tensor Z) (x : Tensor A) n :
  ndim input = 1%nat → batch_of t n →
  (timesteps_in_range input t →
     extract input t x
     = Ok (mkTensor (n :: replicate (ndim x - 1) 1%nat)
             ((λ v, sched_at input v) <$> data t)))
  ∧ (¬ timesteps_in_range input t →
     extract input t x = Raise (RuntimeError "index out of range in gather")).
Proof.
  intros Hi Hb. split.
  - intros Hr. destruct (extract_Ok input t x n Hi Hb Hr) as (c & -> & Hs & Hd).
    f_equal. destruct c; simpl in *; congruence.
  - intros Hr. pose proof (batch_of_length t n Hb) as Hl.
    destruct Hb as [Hw Hs]. unfold extract, gather.
    set (t' := if decide (ndim t = 0%nat) then unsqueeze0 t else t).
    assert (Ht' : shape t' = [n] ∧ data t' = data t).
    { unfold t', ndim. destruct Hs as [Hs | [Hs ->]]; rewrite Hs; simpl; [done|].
      by rewrite Hs. }
    destruct Ht' as [Hs' Hd']. unfold ndim. rewrite Hs', Hd'. simpl.
    rewrite decide_True by (split; [exact Hi|done]).
    rewrite decide_False by exact Hr. done.
Qed.

Lemma broadcast_rev_ones_app l a b :
  broadcast_rev (replicate (length l) 1%nat ++ a) (l ++ b)
  = (l ++.) <$> broadcast_rev a b.
Proof.
  induction l as [|y l IH]; simpl.
  - by destruct (broadcast_rev a b).
  - rewrite IH. destruct (broadcast_rev a b) as [r|]; simpl; [|done].
    repeat case_decide; subst; done.
Qed.

Lemma broadcast_shapes_batch n B rest :
  broadcast_shapes (n :: replicate (length rest) 1%nat) (B :: rest)
  = if decide (n = B) then Some (B :: rest)
    else if decide (n = 1%nat) then Some (B :: rest)
    else if decide (B = 1%nat) then Some (n :: rest)
    else None.
Proof.
  unfold broadcast_shapes. rewrite !reverse_cons, reverse_replicate.
  rewrite <- (length_reverse rest), broadcast_rev_ones_app. simpl.
  repeat case_decide; subst; simpl; rewrite ?reverse_app, ?reverse_involutive; done.
Qed.

Section q_errors.
Context {G : Type} `{!Rng G, !RngLaws G}.
Implicit Types w : World G.

Lemma q_sample_unfold self x0 t noise w :
  q_sample self x0 t noise w
  = ((alphas_prod_t ← extract (alphas_cumprod (scheduler_of w self)) t x0;
      a ← mul (torch.sqrt alphas_prod_t) x0;
      b ← mul (torch.sqrt (rsub 1 alphas_prod_t)) (noise_used noise (shape x0) w);
      add a b),
     world_after_noise noise (shape x0) w).
Proof.
  unfold q_sample, randn_like, torch_randn, noise_used, world_after_noise, scheduler_of.
  unfold mbind, M_bind, get_module, get_scheduler, lift, mret, M_ret.
  destruct noise as [nz|].
  - by destruct (extract _ t x0) as [c|e].
  - destruct (randn (shape x0) (gen w)) as [nz g]; simpl.
    by destruct (extract _ t x0) as [c|e].
Qed.

(** X5: [q_sample] with a timestep outside the schedule raises the index
    error of [torch.gather]; with [n] timesteps in range for a batch of
    [B] samples, where [n], [B] and 1 are three different numbers, it raises
    the size mismatch of broadcasting. In both cases the generator has
    moved when the noise was not given, and nothing else has changed. *)
Theorem q_sample_errors self x0 t noise w n B rest :
  let acp := alphas_cumprod (scheduler_of w self) in
  shape x0 = B :: rest → ndim acp = 1%nat → batch_of t n →
  (¬ timesteps_in_range acp t →
     q_sample self x0 t noise w
     = (Raise (RuntimeError "index out of range in gather"),
        world_after_noise noise (shape x0) w))
  ∧ (timesteps_in_range acp t → n ≠ B → n ≠ 1%nat → B ≠ 1%nat →
     q_sample self x0 t noise w
     = (Raise (RuntimeError "The size of tensor a must match the size of tensor b"),
        world_after_noise noise (shape x0) w)).
Proof.
  intros acp Hsx Hnd Hb. rewrite q_sample_unfold. fold acp.
  destruct (extract_range acp t x0 n Hnd Hb) as [Hin Hout]. split.
  - intros Hr. by rewrite (Hout Hr).
  - intros Hr HnB Hn1 HB1. rewrite (Hin Hr). simpl.
    unfold mul, binop. simpl. unfold ndim. rewrite Hsx. simpl. rewrite Nat.sub_0_r.
    rewrite broadcast_shapes_batch. by rewrite !decide_False.
Qed.

End q_errors.

Lemma bidx_leading_one rest i js :
  valid_index rest js → bidx (1%nat :: rest) (i :: js) = 0%nat :: js.
Proof.
  intros Hv. unfold bidx. rewrite !reverse_cons.
  rewrite bidx_rev_app by (rewrite !length_reverse; symmetry; by eapply Forall2_length).
  rewrite bidx_rev_self by (by apply Forall2_reverse). simpl.
  by rewrite reverse_app, reverse_involutive.
Qed.

Section forward_gen.
Context {G : Type} `{!Rng G, !RngLaws G}.
Implicit Types w : World G.

Lemma forward_equation_gen (c x0 nz : Tensor R) r :
  wf c → wf x0 → wf nz → shape nz = shape x0 →
  broadcast_shapes (shape c) (shape x0) = Some r →
  ∃ xt,
    (a ← mul (torch.sqrt c) x0;
     b ← mul (torch.sqrt (rsub 1 c)) nz;
     add a b) = Ok xt
    ∧ shape xt = r ∧ wf xt
    ∧ ∀ idx, valid_index r idx →
        item xt idx =
          R_sqrt.sqrt (bitem c idx) * bitem x0 idx
          + R_sqrt.sqrt (1 - bitem c idx) * bitem nz idx.
Proof.
  intros Hwc Hwx Hwn Hsn Hr.
  destruct (broadcast_shapes_expands _ _ _ Hr) as [Hec Hex].
  destruct (binop_Ok Rmult (torch.sqrt c) x0 r) as (a & Ha & Ea); [done|].
  destruct (binop_Ok Rmult (torch.sqrt (rsub 1 c)) nz r) as (b & Hb & Eb);
    [simpl; by rewrite Hsn|].
  destruct (binop_same Rplus a b) as (xt & Hxt & Ext); [congruence|].
  rewrite Eb in Ext.
  exists xt. unfold mul, add in *. rewrite Ha; simpl. rewrite Hb; simpl.
  split; [done|]. split; [done|]. split; [by eapply binop_wf|].
  intros idx Hv.
  assert (Hrr : ∀ z : Tensor R, shape z = r → expands (shape z) r).
  { intros z ->. apply expands_refl. }
  rewrite <- (bitem_item xt) by (by rewrite Ext).
  rewrite (bitem_binop Rplus _ _ xt r idx Hxt) by auto.
  rewrite (bitem_binop Rmult _ _ a r idx Ha) by auto.
  rewrite (bitem_binop Rmult _ _ b r idx Hb) by auto.
  unfold torch.sqrt, rsub.
  rewrite !(bitem_tmap _ _ r); try done. by apply tmap_wf.
Qed.

(** X6: [q_sample] on one sample (leading dimension 1) and [n] timesteps
    returns [n] noisy samples: entry [i] is the forward equation at
    timestep [t[i]] on that one sample and that one noise. *)
Theorem q_sample_one_sample self x0 t noise w n rest :
  let acp := alphas_cumprod (scheduler_of w self) in
  wf x0 → shape x0 = 1%nat :: rest →
  batch_of t n → ndim acp = 1%nat → timesteps_in_range acp t →
  (∀ nz, noise = Some nz → wf nz ∧ shape nz = shape x0) →
  wp (q_sample self x0 t noise) w (λ xt _,
    let nz := noise_used noise (shape x0) w in
    shape xt = n :: rest
    ∧ ∀ i js, valid_index (n :: rest) (i :: js) →
        item xt (i :: js) =
          R_sqrt.sqrt (sched_at acp (timestep_at t i)) * item x0 (0%nat :: js)
          + R_sqrt.sqrt (1 - sched_at acp (timestep_at t i)) * item nz (0%nat :: js)).
Proof.
  intros acp Hwx Hsx Hb Hnd Hr Hnz.
  set (nz := noise_used noise (shape x0) w).
  assert (Hnz' : wf nz ∧ shape nz = shape x0).
  { unfold nz, noise_used. destruct noise as [nz'|]; [by apply Hnz|].
    split; [apply randn_wf|apply randn_shape]. }
  destruct Hnz' as [Hwn Hsn].
  destruct (extract_Ok acp t x0 n Hnd Hb Hr) as (c & Hc & Hsc & Hdc).
  assert (Hk : (ndim x0 - 1 = length rest)%nat) by (unfold ndim; rewrite Hsx; simpl; lia).
  rewrite Hk in Hsc.
  assert (Hwc : wf c).
  { unfold wf. rewrite Hsc, Hdc, length_fmap. simpl. rewrite numel_ones.
    rewrite (batch_of_length t n Hb). lia. }
  destruct (forward_equation_gen c x0 nz (n :: rest)) as (xt & Hxt & Hsxt & Hwxt & Hit);
    try done.
  { rewrite Hsc, Hsx, broadcast_shapes_batch. repeat case_decide; subst; done. }
  unfold wp. rewrite q_sample_unfold. fold acp nz. rewrite Hc.
  change (Ok c ≫= ?f) with (f c). cbv beta. rewrite Hxt. cbv zeta.
  split; [done|]. intros i js Hv. rewrite Hit by done.
  apply Forall2_cons in Hv as [Hi Hv].
  assert (Hjs : length js = length rest) by (by eapply Forall2_length).
  rewrite <- Hjs in Hsc.
  rewrite (extract_bitem acp t x0 c n i js) by (done || by right).
  unfold bitem. rewrite Hsn, Hsx, !bidx_leading_one by done. done.
Qed.

End forward_gen.

Section more.
Context {G : Type} `{!Rng G, !RngLaws G}.
Implicit Types w : World G.


Lemma device_unfold self w :
  device self w
  = (match parameters (network_of w self) with
     | p :: _ => Ok (p_device p.2)
     | [] => Raise StopIteration
     end, w).
Proof.
  unfold device, network_of, mbind, M_bind, get_module, get_network.
  by destruct (parameters _).
Qed.

(** X10: over a network without parameters, [self.device] has no
    first parameter: [p_sample_loop] raises [StopIteration] after it has
    drawn the initial noise, and [p_sample] with an integer timestep raises
    it without any draw. *)
Theorem no_parameters_StopIteration self w :
  parameters (network_of w self) = [] →
  (∀ shape_, p_sample_loop self shape_ w
     = (Raise StopIteration, set_gen w (randn shape_ (gen w)).2))
  ∧ (∀ xt z, (- 2 ^ 63 ≤ z < 2 ^ 63)%Z →
       p_sample self xt (t_int z) w = (Raise StopIteration, w)).
Proof.
  intros Hp. split.
  - intros s. unfold p_sample_loop, torch_randn. unfold mbind at 1, M_bind.
    destruct (randn s (gen w)) as [x g] eqn:E. simpl.
    unfold mbind at 1, M_bind. rewrite device_unfold.
    change (network_of _ self) with (network_of w self). by rewrite Hp.
  - intros xt z Hz. unfold p_sample. unfold mbind at 1, M_bind.
    unfold mbind at 1, M_bind, lift, tensor1. rewrite decide_True by done.
    unfold mbind at 1, M_bind. rewrite device_unfold. by rewrite Hp.
Qed.

(** X9: [p_sample] with a Python integer [t] behaves as with the
    tensor [[t]], for a network with a parameter and [t] within the 64-bit
    integers; outside them [torch.tensor] raises its overflow error. *)
Theorem p_sample_int_timestep self xt z w :
  ((- 2 ^ 63 ≤ z < 2 ^ 63)%Z → parameters (network_of w self) ≠ [] →
     p_sample self xt (t_int z) w = p_sample self xt (t_tensor (mkTensor [1%nat] [z])) w)
  ∧ (¬ (- 2 ^ 63 ≤ z < 2 ^ 63)%Z →
     p_sample self xt (t_int z) w = (Raise (RuntimeError "Overflow when unpacking long"), w)).
Proof.
  split.
  - intros Hz Hp. unfold p_sample. unfold mbind at 1 7, M_bind.
    unfold mbind at 1, M_bind, lift, tensor1. rewrite decide_True by done.
    unfold mbind at 1, M_bind. rewrite device_unfold.
    destruct (parameters (network_of w self)); done.
  - intros Hz. unfold p_sample. unfold mbind at 1, M_bind.
    unfold mbind at 1, M_bind, lift, tensor1. by rewrite decide_False.
Qed.

(** X15: [compute_loss] on a tensor without dimensions raises
    [IndexError] (there is no [shape[0]]), and over a schedule without
    timesteps it raises the error of [torch.randint] on an empty range; in
    both cases nothing is drawn and the world is unchanged. *)
Theorem compute_loss_errors self x0 w :
  (shape x0 = [] → compute_loss self x0 w = (Raise IndexError, w))
  ∧ (shape x0 ≠ [] → (num_train_timesteps (scheduler_of w self) ≤ 0)%Z →
     compute_loss self x0 w
     = (Raise (RuntimeError "random_ expects 'from' to be less than 'to'"), w)).
Proof.
  split.
  - intros Hs. unfold compute_loss. rewrite Hs. done.
  - intros Hs HT. unfold compute_loss. destruct (shape x0) as [|b rest]; [done|].
    unfold mbind, M_bind, lift, get_module, get_scheduler, torch_randint. simpl.
    fold (scheduler_of w self). by rewrite decide_False by lia.
Qed.

End more.

Lemma descending_nonpositive T : (T ≤ 0)%Z → descending T = [].
Proof.
  intros HT. unfold descending, arange. by replace (Z.to_nat T) with 0%nat by lia.
Qed.

Lemma descending_head T :
  (1 ≤ T)%Z → descending T = (T - 1)%Z :: descending (T - 1).
Proof.
  intros HT. apply list_eq. intros i.
  destruct (decide (i < Z.to_nat T)%nat) as [Hi|Hi].
  - rewrite descending_lookup by done. destruct i as [|i]; simpl.
    + f_equal. lia.
    + rewrite descending_lookup by lia. f_equal. lia.
  - rewrite lookup_ge_None_2 by (rewrite descending_length; lia).
    symmetry. apply lookup_ge_None_2. simpl. rewrite descending_length. lia.
Qed.

Section loop_edges.
Context {G : Type} `{!Rng G, !RngLaws G}.
Implicit Types w : World G.

(** X11: over a schedule without timesteps, [p_sample_loop] returns
    the noise it drew at the start, after that one draw. *)
Theorem p_sample_loop_no_steps self shape_ w :
  (num_train_timesteps (scheduler_of w self) ≤ 0)%Z →
  parameters (network_of w self) ≠ [] →
  p_sample_loop self shape_ w
  = (Ok (randn shape_ (gen w)).1, set_gen w (randn shape_ (gen w)).2).
Proof.
  intros HT Hp. unfold p_sample_loop, torch_randn. unfold mbind at 1, M_bind.
  destruct (randn shape_ (gen w)) as [x g] eqn:E. simpl.
  unfold mbind at 1, M_bind. rewrite device_unfold.
  change (network_of _ self) with (network_of w self).
  destruct (parameters (network_of w self)) as [|p ps]; [done|].
  unfold mbind, M_bind, get_module, get_scheduler. simpl.
  fold (scheduler_of w self). fold (descending (num_train_timesteps (scheduler_of w self))).
  by rewrite descending_nonpositive.
Qed.

(** X12: for the empty shape [()], [p_sample_loop] over a schedule
    with at least one timestep returns a tensor of shape [[1]], not a
    tensor without dimensions: [extract] reshapes to [[1]] and the result
    broadcasts. *)
Theorem p_sample_loop_scalar_shape self w :
  let vs := scheduler_of w self in
  let net := network_of w self in
  let T := num_train_timesteps vs in
  scheduler_ok vs → network_ok net → parameters net ≠ [] → (1 ≤ T ≤ 2 ^ 63)%Z →
  wp (p_sample_loop self []) w (λ x _, shape x = [1%nat]).
Proof.
  intros vs net T Hok Hnet Hp HT.
  unfold p_sample_loop. apply wp_bind, wp_torch_randn.
  set (x_T := (randn [] (gen w)).1).
  set (w_T := set_gen w (randn [] (gen w)).2).
  apply wp_bind, wp_device; [done|]. intros _.
  apply wp_bind, wp_get_module, wp_bind, wp_get_scheduler.
  fold (scheduler_of w_T self). change (scheduler_of w_T self) with vs. fold T.
  fold (descending T). rewrite descending_head by lia. simpl.
  apply wp_bind, wp_bind. eapply wp_lift.
  { unfold tensor1. rewrite decide_True by lia. done. }
  apply wp_bind, wp_device; [done|]. intros _.
  assert (HT1 : (0 ≤ T - 1 < num_train_timesteps (scheduler_of w_T self))%Z).
  { change (num_train_timesteps (scheduler_of w_T self)) with T. lia. }
  destruct (wp_inv _ _ _ (p_sample_wp_scalar self x_T (T - 1) w_T
              (randn_wf _ _) (randn_shape _ _) Hok HT1 Hnet))
    as (x' & w' & Hrun & Hw' & Hs' & Hwf').
  eapply wp_eq; [exact Hrun|].
  assert (Hso : same_objects w_T w') by (rewrite Hw'; apply same_objects_set_gen).
  eapply wp_mono.
  - apply (for_each_steps self (descending (T - 1)) x' w' 1 []);
      rewrite ?(same_objects_scheduler_of w_T w'), ?(same_objects_network_of w_T w');
      try done.
    apply Forall_forall. intros t Ht%descending_range.
    change (num_train_timesteps (scheduler_of w_T self)) with T. lia.
  - simpl. by intros x'' w'' (_ & ? & _).
Qed.

End loop_edges.

Section schedule_edges.
Context {G : Type} `{!Rng G}.
Implicit Types w : World G.

(** X2: with a negative number of timesteps, construction in a
    supported mode raises the error of [torch.linspace] on a negative
    number of steps, and no scheduler is created. *)
Theorem BaseScheduler_init_negative T b1 bT mode w :
  (T < 0)%Z → supported mode →
  BaseScheduler_init T b1 bT mode w
  = (Raise (RuntimeError "number of steps must be non-negative"), w).
Proof.
  intros HT Hm. unfold BaseScheduler_init, mbind, M_bind, lift, linspace.
  destruct Hm as [-> | ->]; simpl; by rewrite decide_True.
Qed.


End schedule_edges.

Lemma cumprod_from_step acc l i :
  (S i < length l)%nat →
  nth (S i) (cumprod_from acc l) 0 = nth i (cumprod_from acc l) 0 * nth (S i) l 0.
Proof.
  revert acc i. induction l as [|a l IH]; intros acc i Hi; simpl in *; [lia|].
  destruct i as [|i].
  - destruct l; simpl in *; [lia|done].
  - by rewrite IH by lia.
Qed.

Section schedule_more.
Context {G : Type} `{!Rng G}.
Implicit Types w : World G.


(** X4: in a constructed scheduler, [alphas_cumprod[0] = 1 - betas[0]]
    and [alphas_cumprod[i+1] = alphas_cumprod[i] * (1 - betas[i+1])]. *)
Theorem alphas_cumprod_recurrence T b1 bT mode w :
  (0 ≤ T)%Z → supported mode →
  wp (BaseScheduler_init T b1 bT mode) w (λ r w',
    let vs := schedulers w' !!! r in
    ((1 ≤ Z.to_nat T)%nat →
       item (alphas_cumprod vs) [0%nat] = 1 - item (betas vs) [0%nat])
    ∧ ∀ i, (S i < Z.to_nat T)%nat →
        item (alphas_cumprod vs) [S i]
        = item (alphas_cumprod vs) [i] * (1 - item (betas vs) [S i])).
Proof.
  intros HT Hm.
  destruct (BaseScheduler_init_Ok T b1 bT mode w HT Hm)
    as (vs & Hrun & HnT & Hts & Hsb & Hdb & Ha & Hc).
  eapply wp_eq; [exact Hrun|]. cbv zeta.
  rewrite add_scheduler_lookup_total. set (n := Z.to_nat T) in *.
  assert (Hlb : length (data (betas vs)) = n) by (by rewrite Hdb, length_fmap, length_seq).
  assert (Hsc : shape (alphas_cumprod vs) = [n]) by (by rewrite Hc, Ha).
  assert (Hal : ∀ i, (i < n)%nat →
            nth i (data (alphas vs)) 0 = 1 - item (betas vs) [i]).
  { intros i Hi. rewrite (item_1d _ n) by done. rewrite Ha. simpl.
    rewrite !nth_lookup, list_lookup_fmap.
    destruct (lookup_lt_is_Some_2 (data (betas vs)) i) as [v ->]; [lia|done]. }
  assert (Hla : length (data (alphas vs)) = n) by (by rewrite Ha; simpl; rewrite length_fmap).
  split.
  - intros Hn. rewrite (item_1d (alphas_cumprod vs) n) by done. rewrite Hc. simpl.
    rewrite <- Hal by lia. destruct (data (alphas vs)); simpl in *; [lia|]. lra.
  - intros i Hi. rewrite !(item_1d (alphas_cumprod vs) n) by done. rewrite Hc. simpl.
    rewrite cumprod_from_step by lia. by rewrite Hal.
Qed.

End schedule_more.

(** *** Frames, equal modules, checkpoints and draws *)

Section simulation.
Context {G : Type} `{!Rng G}.
Variables (w0 w0' : World G) (self self' : nat).
Hypothesis Halike : alike w0 self w0' self'.

Lemma sim_ret {A} (a : A) : sim w0 w0' (mret a) (mret a).
Proof. intros g. by exists (Ok a), g. Qed.

Lemma sim_lift {A} (r : Res A) : sim w0 w0' (lift r) (lift r).
Proof. intros g. by exists r, g. Qed.

Lemma sim_bind {A B} (m m' : M G A) (f f' : A → M G B) :
  sim w0 w0' m m' → (∀ a, sim w0 w0' (f a) (f' a)) → sim w0 w0' (m ≫= f) (m' ≫= f').
Proof.
  intros Hm Hf g. destruct (Hm g) as (r & g1 & E1 & E2).
  unfold mbind, M_bind. rewrite E1, E2. destruct r as [a|e]; [apply Hf|].
  by exists (Raise e), g1.
Qed.

Lemma sim_get_module {B} (f f' : DiffusionModule → M G B) r r' :
  sim w0 w0' (f (modules w0 !!! r)) (f' (modules w0' !!! r')) →
  sim w0 w0' (get_module r ≫= f) (get_module r' ≫= f').
Proof. intros H g. apply (H g). Qed.

Lemma sim_get_scheduler {B} (f f' : BaseScheduler → M G B) r r' :
  sim w0 w0' (f (schedulers w0 !!! r)) (f' (schedulers w0' !!! r')) →
  sim w0 w0' (get_scheduler r ≫= f) (get_scheduler r' ≫= f').
Proof. intros H g. apply (H g). Qed.

Lemma sim_get_network {B} (f f' : Network → M G B) r r' :
  sim w0 w0' (f (networks w0 !!! r)) (f' (networks w0' !!! r')) →
  sim w0 w0' (get_network r ≫= f) (get_network r' ≫= f').
Proof. intros H g. apply (H g). Qed.

Lemma sim_torch_randn s : sim w0 w0' (torch_randn s) (torch_randn s).
Proof.
  intros g. unfold torch_randn. simpl. destruct (randn s g) as [x g'].
  by exists (Ok x), g'.
Qed.

Lemma sim_torch_randint lo hi s : sim w0 w0' (torch_randint lo hi s) (torch_randint lo hi s).
Proof.
  intros g. unfold torch_randint. simpl. case_decide.
  - destruct (randint lo hi s g) as [x g']. by exists (Ok x), g'.
  - by eexists _, g.
Qed.

Lemma sim_device {B} (k k' : M G B) :
  sim w0 w0' k k' → sim w0 w0' (device self ≫= λ _, k) (device self' ≫= λ _, k').
Proof.
  intros Hk g. unfold device, mbind, M_bind, get_module, get_network. simpl.
  change (networks w0 !!! network (modules w0 !!! self)) with (network_of w0 self).
  change (networks w0' !!! network (modules w0' !!! self')) with (network_of w0' self').
  destruct (parameters (network_of w0 self)) as [|p l] eqn:E1;
    destruct (parameters (network_of w0' self')) as [|p' l'] eqn:E2;
    unfold lift, mret, M_ret; simpl.
  - by eexists _, g.
  - destruct Halike as (_ & _ & Hp). rewrite E1, E2 in Hp. discriminate (proj1 Hp eq_refl).
  - destruct Halike as (_ & _ & Hp). rewrite E1, E2 in Hp. discriminate (proj2 Hp eq_refl).
  - apply (Hk g).
Qed.

Lemma sim_q_sample x0 t noise :
  sim w0 w0' (q_sample self x0 t noise) (q_sample self' x0 t noise).
Proof.
  unfold q_sample. apply sim_bind.
  { destruct noise; [apply sim_ret|apply sim_torch_randn]. }
  intros nz. apply sim_get_module, sim_get_scheduler.
  change (schedulers w0 !!! _) with (scheduler_of w0 self).
  change (schedulers w0' !!! _) with (scheduler_of w0' self').
  destruct Halike as (<- & _ & _).
  apply sim_bind; [apply sim_lift|]. intros c. apply sim_lift.
Qed.

Lemma sim_p_sample xt t :
  sim w0 w0' (p_sample self xt t) (p_sample self' xt t).
Proof.
  unfold p_sample. apply sim_bind.
  { destruct t as [z|t]; [|apply sim_ret].
    apply sim_bind; [apply sim_lift|]. intros t. apply sim_device, sim_ret. }
  intros t'. apply sim_get_module, sim_get_scheduler.
  change (schedulers w0 !!! _) with (scheduler_of w0 self).
  change (schedulers w0' !!! _) with (scheduler_of w0' self').
  destruct Halike as (<- & Hc & _).
  do 4 (apply sim_bind; [apply sim_lift|]; intros ?).
  apply sim_get_network.
  change (networks w0 !!! _) with (network_of w0 self).
  change (networks w0' !!! _) with (network_of w0' self').
  rewrite <- Hc.
  apply sim_bind; [apply sim_torch_randn|]. intros nz.
  apply sim_bind; [apply sim_lift|]. intros mask. apply sim_lift.
Qed.

Lemma sim_for_each {A B} (l : list A) (body body' : B → A → M G B) x :
  (∀ x a, sim w0 w0' (body x a) (body' x a)) →
  sim w0 w0' (for_each l body x) (for_each l body' x).
Proof.
  intros Hb. revert x. induction l as [|a l IH]; intros x; simpl; [apply sim_ret|].
  apply sim_bind; [apply Hb|]. intros x'. apply IH.
Qed.

Lemma sim_p_sample_loop s :
  sim w0 w0' (p_sample_loop self s) (p_sample_loop self' s).
Proof.
  unfold p_sample_loop. apply sim_bind; [apply sim_torch_randn|]. intros x.
  apply sim_device, sim_get_module, sim_get_scheduler.
  change (schedulers w0 !!! _) with (scheduler_of w0 self).
  change (schedulers w0' !!! _) with (scheduler_of w0' self').
  destruct Halike as (<- & _ & _).
  apply sim_for_each. intros y t.
  apply sim_bind; [apply sim_lift|]. intros tt. apply sim_device, sim_p_sample.
Qed.

Lemma sim_compute_loss x0 :
  sim w0 w0' (compute_loss self x0) (compute_loss self' x0).
Proof.
  unfold compute_loss. apply sim_bind; [apply sim_lift|]. intros B.
  apply sim_get_module, sim_get_scheduler.
  change (schedulers w0 !!! _) with (scheduler_of w0 self).
  change (schedulers w0' !!! _) with (scheduler_of w0' self').
  destruct Halike as (<- & Hc & _).
  apply sim_bind; [apply sim_torch_randint|]. intros t.
  apply sim_bind; [apply sim_torch_randn|]. intros nz.
  apply sim_bind; [apply sim_q_sample|]. intros xt.
  apply sim_get_network.
  change (networks w0 !!! _) with (network_of w0 self).
  change (networks w0' !!! _) with (network_of w0' self').
  rewrite <- Hc. apply sim_lift.
Qed.

End simulation.

Lemma set_gen_gen {G} (w : World G) : set_gen w (gen w) = w.
Proof. by destruct w. Qed.

Lemma alike_refl {G} (w : World G) self : alike w self w self.
Proof. done. Qed.

Lemma sim_agree {G A} (w w' : World G) (m m' : M G A) :
  gen w = gen w' → sim w w' m m' → agree m w m' w'.
Proof.
  intros Hg H. destruct (H (gen w)) as (r & g' & E1 & E2).
  rewrite set_gen_gen in E1. rewrite Hg, set_gen_gen in E2.
  unfold agree. by rewrite E1, E2.
Qed.

Lemma sim_same_objects {G A} (w : World G) (m m' : M G A) :
  sim w w m m' → same_objects w (m w).2.
Proof.
  intros H. destruct (H (gen w)) as (r & g' & E1 & _).
  rewrite set_gen_gen in E1. rewrite E1. apply same_objects_set_gen.
Qed.

Section sampling.
Context {G : Type} `{!Rng G}.
Implicit Types w : World G.

(** X17: [q_sample], [p_sample], [p_sample_loop] and [compute_loss]
    leave every module, network, scheduler and file as it was, on every
    input, also when they raise; only the generator moves. *)
Theorem sampling_keeps_objects self w :
  (∀ x0 t noise, same_objects w (q_sample self x0 t noise w).2)
  ∧ (∀ xt t, same_objects w (p_sample self xt t w).2)
  ∧ (∀ s, same_objects w (p_sample_loop self s w).2)
  ∧ (∀ x0, same_objects w (compute_loss self x0 w).2).
Proof.
  pose proof (alike_refl w self) as Ha.
  split; [|split; [|split]]; intros; eapply sim_same_objects;
    [by apply sim_q_sample|by apply sim_p_sample
    |by apply sim_p_sample_loop|by apply sim_compute_loss].
Qed.

(** X18: two modules with the same scheduler and networks of the same
    function (both with or both without parameters) return the same
    results from [q_sample], [p_sample], [p_sample_loop] and
    [compute_loss] on the same inputs from the same generator state, errors
    included, and leave the same generator state. *)
Theorem alike_modules_sample_alike self self' w w' :
  alike w self w' self' → gen w = gen w' →
  (∀ x0 t noise, agree (q_sample self x0 t noise) w (q_sample self' x0 t noise) w')
  ∧ (∀ xt t, agree (p_sample self xt t) w (p_sample self' xt t) w')
  ∧ (∀ s, agree (p_sample_loop self s) w (p_sample_loop self' s) w')
  ∧ (∀ x0, agree (compute_loss self x0) w (compute_loss self' x0) w').
Proof.
  intros Ha Hg.
  split; [|split; [|split]]; intros; (apply sim_agree; [done|]);
    [by apply sim_q_sample|by apply sim_p_sample
    |by apply sim_p_sample_loop|by apply sim_compute_loss].
Qed.

Lemma alike_loaded self self' path w :
  let w1 := (save self path w).2 in
  let dic := mkCheckpoint (network_of w self) (scheduler_of w self)
               (state_dict_at (network_of w self) (scheduler_of w self)) in
  (self' < length (modules w))%nat → NoDup (parameters (network_of w self)).*1 →
  alike w self (loaded_world w1 self' dic) self'.
Proof.
  intros w1 dic Hs Hnd. unfold alike.
  rewrite scheduler_of_loaded, network_of_loaded by done.
  unfold dic. cbn [state_dict_of hparams_var_scheduler hparams_network].
  rewrite load_into_scheduler_same. split; [done|]. split.
  - intros x t. symmetry. by apply call_load_into_network.
  - unfold load_into_network, to_cpu. simpl.
    destruct (parameters (network_of w self)); simpl; split; done.
Qed.

(** X24: after [save] followed by [load] of the same path, the loading
    module returns from [q_sample], [p_sample], [p_sample_loop] and
    [compute_loss] what the saved module returned before, on the same
    inputs from the same generator state. *)
Theorem reloaded_module_samples_alike self self' path w :
  (self' < length (modules w))%nat → NoDup (parameters (network_of w self)).*1 →
  wp (_ ← save self path; load self' path) w (λ _ w',
    (∀ x0 t noise, agree (q_sample self x0 t noise) w (q_sample self' x0 t noise) w')
    ∧ (∀ xt t, agree (p_sample self xt t) w (p_sample self' xt t) w')
    ∧ (∀ s, agree (p_sample_loop self s) w (p_sample_loop self' s) w')
    ∧ (∀ x0, agree (compute_loss self x0) w (compute_loss self' x0) w')).
Proof.
  intros Hself Hnd. apply wp_bind. eapply wp_eq; [apply save_run|].
  set (dic := mkCheckpoint (network_of w self) (scheduler_of w self) _).
  unfold wp. rewrite (load_run self' path _ dic) by (apply lookup_insert_eq || done).
  unfold dic at 1. rewrite load_result_saved.
  pose proof (alike_loaded self self' path w Hself Hnd) as Ha. cbv zeta in Ha.
  rewrite save_run in Ha. simpl snd in Ha. fold dic in Ha.
  split; [|split; [|split]]; intros; (apply sim_agree; [done|]);
    [by apply sim_q_sample|by apply sim_p_sample
    |by apply sim_p_sample_loop|by apply sim_compute_loss].
Qed.

End sampling.

Section persistence_more.
Context {G : Type} `{!Rng G}.
Implicit Types w : World G.

(** X19: [load] of a path without checkpoint raises
    [FileNotFoundError] and changes nothing; [save] writes no path but its
    own, so this also holds after a [save] to another path. *)
Theorem load_unsaved_path self self' path path' w :
  files w !! path' = None → path ≠ path' →
  load self' path' w = (Raise FileNotFoundError, w)
  ∧ (_ ← save self path; load self' path') w
    = (Raise FileNotFoundError, (save self path w).2).
Proof.
  intros Hf Hp. split; [by apply load_missing|].
  unfold mbind at 1. unfold M_bind. rewrite save_run. simpl snd.
  apply load_missing. simpl. by rewrite lookup_insert_ne.
Qed.

Lemma load_result_missing_key dic k :
  k ∈ dom (state_dict_at (to_cpu (hparams_network dic)) (hparams_var_scheduler dic)) →
  state_dict_of dic !! k = None →
  load_result dic = Raise (RuntimeError "Error(s) in loading state_dict for DiffusionModule").
Proof.
  intros Hk Hn. unfold load_result. rewrite decide_False; [done|].
  intros [Hd _]. rewrite <- Hd in Hk. apply elem_of_dom in Hk as [v Hv]. congruence.
Qed.

(** X20: [load] of a checkpoint whose state dictionary lacks a key of
    the pickled objects raises the error of [load_state_dict], and by then
    the module is already bound to the new network and scheduler of the
    checkpoint, with the matching entries copied in. *)
Theorem load_not_atomic self path w dic k :
  files w !! path = Some dic → (self < length (modules w))%nat →
  k ∈ dom (state_dict_at (hparams_network dic) (hparams_var_scheduler dic)) →
  state_dict_of dic !! k = None →
  ∃ w', load self path w
        = (Raise (RuntimeError "Error(s) in loading state_dict for DiffusionModule"), w')
    ∧ modules w' !!! self = mkDiffusionModule (length (networks w)) (length (schedulers w))
    ∧ network_of w' self
      = load_into_network (state_dict_of dic) (to_cpu (hparams_network dic))
    ∧ scheduler_of w' self
      = load_into_scheduler (state_dict_of dic) (hparams_var_scheduler dic).
Proof.
  intros Hf Hs Hk Hn. exists (loaded_world w self dic).
  rewrite (load_run self path w dic) by done.
  rewrite (load_result_missing_key dic k) by (by rewrite ?state_dict_at_to_cpu).
  split; [done|]. rewrite scheduler_of_loaded, network_of_loaded by done.
  split; [|done]. unfold loaded_world. simpl. by rewrite list_lookup_total_insert_eq.
Qed.

(** X21: [load] on one module leaves every other module as it was,
    with the same network and the same scheduler, also when it shared them
    with the loading module; the files and the generator are unchanged. *)
Theorem load_keeps_other_modules self other path w :
  other ≠ self → (self < length (modules w))%nat →
  (network (modules w !!! other) < length (networks w))%nat →
  (var_scheduler (modules w !!! other) < length (schedulers w))%nat →
  let w' := (load self path w).2 in
  modules w' !!! other = modules w !!! other
  ∧ network_of w' other = network_of w other
  ∧ scheduler_of w' other = scheduler_of w other
  ∧ files w' = files w ∧ gen w' = gen w.
Proof.
  intros Ho Hs Hn Hv. cbv zeta.
  destruct (files w !! path) as [dic|] eqn:Hf.
  - rewrite (load_run self path w dic) by done. unfold network_of, scheduler_of. simpl.
    rewrite list_lookup_total_insert_ne by done.
    rewrite !lookup_total_app_l by done. done.
  - by rewrite load_missing.
Qed.

(** X22: after [save] followed by [load] of the same path, the
    scheduler of the loading module equals the saved one in all its fields
    ([timesteps] and [num_train_timesteps] included), its network has the
    saved parameters, all on the CPU, so [device] returns the CPU, and
    the module holds new objects; the generator is unchanged. *)
Theorem save_load_scheduler_and_device self self' path w :
  let vs := scheduler_of w self in
  let net := network_of w self in
  (self' < length (modules w))%nat → NoDup (parameters net).*1 →
  wp (_ ← save self path; load self' path) w (λ _ w',
    scheduler_of w' self' = vs
    ∧ parameters (network_of w' self')
      = (λ np, (np.1, mkParameter cpu (p_data np.2))) <$> parameters net
    ∧ (parameters net ≠ [] → device self' w' = (Ok cpu, w'))
    ∧ modules w' !!! self' = mkDiffusionModule (length (networks w)) (length (schedulers w))
    ∧ gen w' = gen w).
Proof.
  intros vs net Hself Hnd. apply wp_bind. eapply wp_eq; [apply save_run|].
  fold vs net. set (dic := mkCheckpoint net vs (state_dict_at net vs)).
  unfold wp. rewrite (load_run self' path _ dic) by (apply lookup_insert_eq || done).
  unfold dic at 1. rewrite load_result_saved.
  set (w' := loaded_world _ self' dic).
  assert (Hp : parameters (network_of w' self')
               = (λ np, (np.1, mkParameter cpu (p_data np.2))) <$> parameters net).
  { unfold w'. rewrite network_of_loaded by done.
    unfold dic. cbn [state_dict_of hparams_network]. unfold load_into_network, to_cpu.
    simpl. rewrite <- list_fmap_compose. apply Forall_fmap_ext_1.
    apply Forall_forall. intros [name p] Hin. simpl. do 2 f_equal.
    apply load_from_same. by apply state_dict_at_parameter. }
  split; [|split; [done|split; [|split; [|done]]]].
  - unfold w'. rewrite scheduler_of_loaded by done.
    unfold dic. cbn [state_dict_of hparams_var_scheduler].
    apply load_into_scheduler_same.
  - intros Hne. rewrite device_unfold. fold (network_of w' self'). rewrite Hp.
    destruct (parameters net); done.
  - unfold w', loaded_world. simpl. by rewrite list_lookup_total_insert_eq.
Qed.

(** X23: after a [save] to [p1] and a [save] of another module to [p2],
    [load] of [p1] restores the first module when the paths differ and the
    second one when they are the same path. *)
Theorem save_paths self1 self2 self' p1 p2 w :
  let src := if decide (p1 = p2) then self2 else self1 in
  (self' < length (modules w))%nat → NoDup (parameters (network_of w src)).*1 →
  wp (_ ← save self1 p1; _ ← save self2 p2; load self' p1) w (λ _ w',
    scheduler_of w' self' = scheduler_of w src
    ∧ ∀ x t, call (network_of w' self') x t = call (network_of w src) x t).
Proof.
  intros src Hself Hnd. apply wp_bind. eapply wp_eq; [apply save_run|].
  apply wp_bind. eapply wp_eq; [apply save_run|].
  set (dic := mkCheckpoint (network_of w src) (scheduler_of w src)
                (state_dict_at (network_of w src) (scheduler_of w src))).
  unfold wp. rewrite (load_run self' p1 _ dic); [| |done].
  - unfold dic at 1. rewrite load_result_saved.
    rewrite scheduler_of_loaded, network_of_loaded by done.
    unfold dic. cbn [state_dict_of hparams_var_scheduler hparams_network].
    rewrite load_into_scheduler_same. split; [done|].
    intros x t. by apply call_load_into_network.
  - simpl. unfold dic, src. case_decide as Hp.
    + subst p2. by rewrite lookup_insert_eq.
    + rewrite lookup_insert_ne by done. by rewrite lookup_insert_eq.
Qed.

End persistence_more.

Lemma sum_list_nonneg l : Forall (λ v, 0 <= v) l → 0 <= sum_list l.
Proof. induction 1; simpl; lra. Qed.

Lemma mse_nonneg a b : 0 <= mse a b.
Proof.
  unfold mse. apply Rmult_le_pos.
  - apply sum_list_nonneg. revert b.
    induction a as [|p a IH]; intros [|q b]; simpl; try apply Forall_nil_2.
    apply Forall_cons_2; [apply Rle_0_sqr|apply IH].
  - destruct (length b) as [|n] eqn:E; [simpl; rewrite Rinv_0; lra|].
    left. apply Rinv_0_lt_compat. apply lt_0_INR. lia.
Qed.

Section loss_more.
Context {G : Type} `{!Rng G, !RngLaws G}.
Implicit Types w : World G.

(** X16: on a non-empty batch, the loss that [compute_loss] returns is
    never negative. *)
Theorem compute_loss_nonneg self x0 w B rest :
  let vs := scheduler_of w self in
  wf x0 → shape x0 = B :: rest → numel (shape x0) ≠ 0%nat →
  scheduler_ok vs → (0 < num_train_timesteps vs)%Z → network_ok (network_of w self) →
  wp (compute_loss self x0) w (λ loss _, 0 <= loss).
Proof.
  intros vs Hwx Hsx _ Hok HT Hnet. unfold compute_loss.
  apply wp_bind. eapply wp_lift; [by rewrite Hsx|].
  apply wp_bind, wp_get_module, wp_bind, wp_get_scheduler.
  fold (scheduler_of w self). fold vs.
  set (T := num_train_timesteps vs) in *.
  apply wp_bind, wp_torch_randint; [done|].
  set (t := (randint 0 T [B] (gen w)).1). set (g1 := (randint 0 T [B] (gen w)).2).
  apply wp_bind. unfold randn_like. apply wp_torch_randn. simpl gen.
  set (noise := (randn (shape x0) g1).1). set (g2 := (randn (shape x0) g1).2).
  set (w2 := set_gen (set_gen w g1) g2).
  assert (Hrange : Forall (λ v, 0 ≤ v < T)%Z (data t)) by (by apply randint_range).
  assert (Hbt : batch_of t B) by (split; [apply randint_wf|left; apply randint_shape]).
  assert (Hwn : wf noise ∧ shape noise = shape x0).
  { split; [apply randn_wf|apply randn_shape]. }
  destruct (Hok) as ((Hb & Ha & Hc) & (Hwb & Hwa & Hwc)).
  pose proof (q_sample_wp self x0 t (Some noise) w2 B rest) as Hq.
  cbv zeta in Hq. change (scheduler_of w2 self) with vs in Hq.
  apply wp_bind. eapply wp_mono.
  { apply Hq; try done.
    - by left.
    - unfold ndim. by rewrite Hc.
    - unfold timesteps_in_range. eapply Forall_impl; [exact Hrange|]. simpl.
      unfold wf in Hwc. rewrite Hwc, Hc. simpl. fold T. lia.
    - by intros ? [= <-]. }
  cbv zeta. intros xt w' (-> & Hsxt & Hwxt & Hit).
  apply wp_bind, wp_get_network.
  change (networks w2 !!! network (modules w !!! self)) with (network_of w self).
  destruct (Hnet xt t Hwxt) as [Hwp Hsp].
  eapply wp_lift.
  { apply mse_loss_same; [done|by destruct Hwn|]. destruct Hwn as [_ Hsn].
    by rewrite Hsp, Hsxt, Hsn. }
  apply mse_nonneg.
Qed.

End loss_more.

Section draws.
Context {G : Type} `{!Rng G, !RngLaws G}.
Implicit Types w : World G.

Lemma run_steps_draws self ts x w x' w' B rest :
  run_steps self ts x w x' w' →
  wf x → shape x = B :: rest →
  scheduler_ok (scheduler_of w self) → network_ok (network_of w self) →
  Forall (λ t, 0 ≤ t < num_train_timesteps (scheduler_of w self))%Z ts →
  w' = set_gen w (after_draws (B :: rest) (length ts) (gen w)).
Proof.
  induction 1 as [x w|t ts x w x1 w1 x2 w2 Hstep Hrest IH]; intros Hw Hs Hok Hnet Hts.
  - simpl. by rewrite set_gen_gen.
  - apply Forall_cons in Hts as [Ht Hts].
    pose proof (p_sample_wp self x (t_tensor (mkTensor [1%nat] [t])) w B rest Hw Hs
      ltac:(right; split; [done|by left]) Hok
      ltac:(destruct Hok as ((Hb & _) & (Hwb & _)); unfold timesteps_in_range, wf in *;
            rewrite Hwb, Hb; simpl; constructor; [lia|done])
      Hnet ltac:(done)) as Hwp.
    unfold wp in Hwp. rewrite Hstep in Hwp. cbv zeta in Hwp.
    destruct Hwp as (Hw1 & Hs1 & Hwf1 & _).
    assert (Hso : same_objects w w1) by (rewrite Hw1; apply same_objects_set_gen).
    rewrite IH; rewrite ?(same_objects_scheduler_of w w1), ?(same_objects_network_of w w1);
      try done; [|congruence].
    rewrite Hw1, Hs. done.
Qed.

Lemma p_sample_loop_wp self w B rest :
  let vs := scheduler_of w self in
  let T := num_train_timesteps vs in
  scheduler_ok vs → network_ok (network_of w self) →
  parameters (network_of w self) ≠ [] → (T ≤ 2 ^ 63)%Z →
  wp (p_sample_loop self (B :: rest)) w (λ x w',
    shape x = B :: rest ∧ wf x
    ∧ w' = set_gen w (after_draws (B :: rest) (S (Z.to_nat T)) (gen w))).
Proof.
  intros vs T Hok Hnet Hp HT.
  unfold p_sample_loop. apply wp_bind, wp_torch_randn.
  set (x_T := (randn (B :: rest) (gen w)).1).
  set (w_T := set_gen w (randn (B :: rest) (gen w)).2).
  apply wp_bind, wp_device; [done|]. intros _.
  apply wp_bind, wp_get_module, wp_bind, wp_get_scheduler.
  fold (scheduler_of w_T self). change (scheduler_of w_T self) with vs. fold T.
  fold (descending T).
  assert (Hr : Forall (λ t, 0 ≤ t < T)%Z (descending T)).
  { apply Forall_forall. intros t Ht%descending_range. lia. }
  eapply wp_mono.
  - apply (for_each_steps self (descending T) x_T w_T B rest); try done.
    + apply randn_wf.
    + apply randn_shape.
    + eapply Forall_impl; [exact Hr|]. simpl. intros t Ht.
      change (num_train_timesteps (scheduler_of w_T self)) with T. lia.
  - simpl. intros x' w' (Hsteps & Hs & Hwf & _). split; [done|]. split; [done|].
    rewrite (run_steps_draws self _ _ _ _ _ B rest Hsteps); try done.
    + by rewrite descending_length.
    + apply randn_wf.
    + apply randn_shape.
Qed.

(** X13: [p_sample_loop] for a shape with a batch dimension moves the
    generator by exactly [T + 1] draws of that shape: the initial noise and
    one draw per timestep, timestep 0 included. *)
Theorem p_sample_loop_draws self w B rest :
  let vs := scheduler_of w self in
  let T := num_train_timesteps vs in
  scheduler_ok vs → network_ok (network_of w self) →
  parameters (network_of w self) ≠ [] → (T ≤ 2 ^ 63)%Z →
  wp (p_sample_loop self (B :: rest)) w (λ _ w',
    w' = set_gen w (after_draws (B :: rest) (S (Z.to_nat T)) (gen w))).
Proof.
  intros vs T Hok Hnet Hp HT.
  eapply wp_mono; [by apply p_sample_loop_wp|]. by intros x w' (_ & _ & ->).
Qed.

Lemma BaseScheduler_init_scheduler_ok T b1 bT mode w :
  (0 ≤ T)%Z → supported mode →
  ∃ vs, BaseScheduler_init T b1 bT mode w = (Ok (length (schedulers w)), add_scheduler w vs)
    ∧ num_train_timesteps vs = T ∧ scheduler_ok vs.
Proof.
  intros HT Hm.
  destruct (BaseScheduler_init_Ok T b1 bT mode w HT Hm)
    as (vs & Hrun & HnT & Hts & Hsb & Hdb & Ha & Hc).
  exists vs. split; [done|]. split; [done|]. set (n := Z.to_nat T) in *.
  assert (Hlb : length (data (betas vs)) = n) by (by rewrite Hdb, length_fmap, length_seq).
  assert (Hla : length (data (alphas vs)) = n) by (by rewrite Ha; simpl; rewrite length_fmap).
  assert (Hlc : length (data (alphas_cumprod vs)) = n).
  { by rewrite Hc; simpl; rewrite cumprod_from_length. }
  unfold scheduler_ok, wf. rewrite HnT. fold n. rewrite Hlb, Hla, Hlc.
  rewrite Hc, Ha; simpl. rewrite Hsb. simpl. repeat split; lia.
Qed.

(** X14: a module constructed over a scheduler that
    [BaseScheduler] built with [0 <= T <= 2^63] in a supported mode and over a
    network with a parameter that keeps shapes samples: [p_sample_loop]
    returns a tensor of the requested shape. *)
Theorem constructed_module_samples T b1 bT mode net B rest w :
  (0 ≤ T ≤ 2 ^ 63)%Z → supported mode →
  (mode = "quad"%string → 0 <= b1 ∧ 0 <= bT) →
  network_ok net → parameters net ≠ [] →
  wp (s ← BaseScheduler_init T b1 bT mode;
      n ← new_network net;
      self ← DiffusionModule_init n s;
      p_sample_loop self (B :: rest)) w (λ x w',
    shape x = B :: rest ∧ wf x).
Proof.
  intros HT Hm _ Hnet Hp.
  destruct (BaseScheduler_init_scheduler_ok T b1 bT mode w ltac:(lia) Hm)
    as (vs & Hrun & HnT & Hok).
  apply wp_bind. eapply wp_eq; [exact Hrun|].
  apply wp_bind. eapply wp_eq; [reflexivity|].
  apply wp_bind. eapply wp_eq; [reflexivity|].
  match goal with
  | |- wp (p_sample_loop ?s _) ?w0 _ => set (self := s); set (w3 := w0)
  end.
  assert (Hs : scheduler_of w3 self = vs).
  { unfold scheduler_of, w3, self. simpl. rewrite lookup_total_snoc. simpl.
    apply lookup_total_snoc. }
  assert (Hn : network_of w3 self = net).
  { unfold network_of, w3, self. simpl. rewrite lookup_total_snoc. simpl.
    apply lookup_total_snoc. }
  eapply wp_mono.
  - apply (p_sample_loop_wp self w3 B rest); rewrite ?Hs, ?Hn; try done. lia.
  - by intros x w' (? & ? & _).
Qed.

(** X8: [p_sample] with a timestep tensor outside the schedule raises
    the index error of [torch.gather] before any noise is drawn: the world
    is unchanged. *)
Theorem p_sample_errors self xt t w n :
  let vs := scheduler_of w self in
  scheduler_ok vs → batch_of t n →
  ¬ timesteps_in_range (betas vs) t →
  p_sample self xt (t_tensor t) w
  = (Raise (RuntimeError "index out of range in gather"), w).
Proof.
  intros vs Hok Hb Hr.
  destruct (Hok) as ((Hsb & Hsa & Hsc) & (Hwb & Hwa & Hwc)).
  assert (Hnd : ndim (alphas_cumprod vs) = 1%nat) by (unfold ndim; by rewrite Hsc).
  assert (Hr' : ¬ timesteps_in_range (alphas_cumprod vs) t).
  { unfold timesteps_in_range, wf in *. by rewrite Hwc, Hsc, <- Hsb, <- Hwb. }
  destruct (extract_range (alphas_cumprod vs) t xt n Hnd Hb) as [_ Hout].
  unfold p_sample, mbind, M_bind, mret, M_ret, get_module, get_scheduler, lift.
  fold (scheduler_of w self). fold vs. by rewrite (Hout Hr').
Qed.

End draws.

(** X1: for a one-dimensional [input] and a timestep [t] that is a scalar
    or holds [n] entries, [extract] returns the entries of [input] at the
    indices of [t] as a tensor of shape [[n, 1, ..., 1]] with as many
    dimensions as [x] when every index is within [input]; an index outside
    [input] raises the index error of [torch.gather], and a [t] of two or
    more dimensions raises its error on the number of dimensions. *)
Theorem extract_result {A} (input : Tensor R) (t : Tensor Z) (x : Tensor A) n :
  ndim input = 1%nat →
  (batch_of t n → timesteps_in_range input t →
     extract input t x
     = Ok (mkTensor (n :: replicate (ndim x - 1) 1%nat)
             ((λ v, sched_at input v) <$> data t)))
  ∧ (batch_of t n → ¬ timesteps_in_range input t →
     extract input t x = Raise (RuntimeError "index out of range in gather"))
  ∧ ((2 ≤ ndim t)%nat →
     extract input t x
     = Raise (RuntimeError
         "Index tensor must have the same number of dimensions as input tensor")).
Proof.
  intros Hi. split; [|split].
  - intros Hb Hr. by apply (extract_range input t x n Hi Hb).
  - intros Hb Hr. by apply (extract_range input t x n Hi Hb).
  - apply extract_rank_error.
Qed.

(** ** Runs in the small world *)

#[global] Instance counter_rng_laws : RngLaws nat.
Proof.
  split; simpl.
  - done.
  - intros. unfold wf; simpl. by rewrite length_replicate.
  - done.
  - intros. unfold wf; simpl. by rewrite length_replicate.
  - intros lo hi s g Hlt. apply Forall_forall. intros x [-> _]%elem_of_replicate. lia.
Qed.

(** The model runs: what construction and [extract] return in the small
    world. *)
Example toy_world_timesteps :
  timesteps (scheduler_of toy_world 0) = mkTensor [2%nat] [1; 0]%Z.
Proof. reflexivity. Qed.

Example toy_world_extract :
  shape <$> extract (alphas_cumprod (scheduler_of toy_world 0)) toy_t toy_x0
  = Ok [2; 1]%nat.
Proof. reflexivity. Qed.

Example toy_world_loop_shape :
  shape <$> (p_sample_loop 0 [3; 2]%nat toy_world).1 = Ok [3; 2]%nat.
Proof. reflexivity. Qed.

Lemma toy_scheduler_ok : scheduler_ok (scheduler_of toy_world 0).
Proof. unfold scheduler_ok, wf. simpl. repeat split; reflexivity. Qed.

Lemma toy_network_ok : network_ok (network_of toy_world 0).
Proof. intros x t Hx. split; [exact Hx|reflexivity]. Qed.

Lemma toy_t_in_range : timesteps_in_range (betas (scheduler_of toy_world 0)) toy_t.
Proof. unfold timesteps_in_range. simpl. repeat constructor; lia. Qed.

Lemma toy_index_valid : valid_index (shape toy_x0) [1; 0]%nat.
Proof. repeat constructor. Qed.

(** *** The schedule of the DDPM paper *)

(** The example of C4: T=1000, beta_1=1e-4, beta_T=0.02, mode "linear". *)
Lemma BaseScheduler_init_schedule_witness :
  wp (BaseScheduler_init 1000 (1 / 10000) (2 / 100) "linear") empty_world (λ r w',
    let vs := schedulers w' !!! r in
    length (data (betas vs)) = 1000%nat
    ∧ item (betas vs) [0%nat] = 1 / 10000
    ∧ item (betas vs) [999%nat] = 2 / 100).
Proof.
  eapply wp_mono.
  - apply (BaseScheduler_init_schedule 1000 (1 / 10000) (2 / 100) "linear" empty_world).
    + lia.
    + by left.
    + discriminate.
  - cbv zeta. intros r w' (_ & _ & _ & (Hl & _) & _ & _ & _ & _ & Hf & Hlast).
    split; [exact Hl|]. split; [apply Hf; lia|]. apply Hlast. lia.
Defined.

(** The example of C5: with these parameters alphas_cumprod is strictly
    decreasing. *)
Lemma schedule_monotone_witness :
  wp (BaseScheduler_init 1000 (1 / 10000) (2 / 100) "linear") empty_world (λ r w',
    let vs := schedulers w' !!! r in
    nondecreasing (betas vs)
    ∧ within_unit (alphas_cumprod vs)
    ∧ strictly_decreasing (alphas_cumprod vs)).
Proof.
  eapply wp_mono.
  - apply (schedule_monotone 1000 (1 / 10000) (2 / 100) "linear" empty_world).
    + lia.
    + by left.
    + lra.
    + discriminate.
  - cbv zeta. intros r w' (Hb & Hc).
    destruct Hc as (_ & Hu & Hd); [lra|lra|].
    split; [exact Hb|]. split; [exact Hu|]. apply Hd. lra.
Defined.

(** C5 as stated fails: with [beta_1 = 2 < beta_T = 4] and three steps in
    mode "linear", betas is [2, 3, 4], alphas is [-1, -2, -3] and
    alphas_cumprod is [-1, 2, -6], which is neither non-increasing nor
    within (0, 1]. *)
Lemma schedule_unbounded_betas :
  2 < 4 ∧
  wp (BaseScheduler_init 3 2 4 "linear") empty_world (λ r w',
    let vs := schedulers w' !!! r in
    item (alphas_cumprod vs) [0%nat] = -1
    ∧ item (alphas_cumprod vs) [1%nat] = 2
    ∧ item (alphas_cumprod vs) [2%nat] = -6
    ∧ ¬ nonincreasing (alphas_cumprod vs)
    ∧ ¬ within_unit (alphas_cumprod vs)).
Proof.
  split; [lra|].
  apply wp_mono with (P := λ r w',
    let vs := schedulers w' !!! r in
    length (data (alphas_cumprod vs)) = 3%nat
    ∧ item (alphas_cumprod vs) [0%nat] = -1
    ∧ item (alphas_cumprod vs) [1%nat] = 2
    ∧ item (alphas_cumprod vs) [2%nat] = -6).
  - unfold wp, BaseScheduler_init, mbind, M_bind, lift, linspace. simpl.
    unfold item; simpl. repeat split; lra.
  - cbv zeta. intros r w' (Hl & E0 & E1 & E2). repeat split; try done.
    + intros Hn. specialize (Hn 0%nat 1%nat). rewrite E0, E1, Hl in Hn.
      assert (2 <= -1) by (apply Hn; lia). lra.
    + intros Hu. specialize (Hu 0%nat). rewrite E0, Hl in Hu.
      assert (0 < -1 <= 1) by (apply Hu; lia). lra.
Qed.

(** *** The forward and the reverse process *)

Lemma q_sample_forward_witness :
  wp (q_sample 0 toy_x0 toy_t (Some (zeros (shape toy_x0)))) toy_world (λ xt _,
    shape xt = [2; 2]%nat
    ∧ item xt [1; 0]%nat
      = R_sqrt.sqrt (sched_at (alphas_cumprod (scheduler_of toy_world 0)) 1) * 3).
Proof.
  eapply wp_mono.
  - apply (q_sample_forward 0 toy_x0 toy_t (Some (zeros (shape toy_x0))) toy_world
             2 [2%nat]).
    + reflexivity.
    + reflexivity.
    + left. split; [reflexivity|left; reflexivity].
    + reflexivity.
    + unfold timesteps_in_range. simpl. repeat constructor; lia.
    + intros nz [= <-]. split; reflexivity.
  - cbv zeta. intros xt w' (_ & Hs & _ & Hz). split; [exact Hs|].
    apply (Hz eq_refl 1%nat [0%nat] toy_index_valid).
Defined.

Lemma p_sample_reverse_witness :
  wp (p_sample 0 toy_x0 (t_int 0)) toy_world (λ x' _,
    wp (p_sample 0 toy_x0 (t_int 0)) (set_gen toy_world 7%nat) (λ x2 _, x2 = x')).
Proof.
  eapply wp_mono.
  - apply (p_sample_reverse 0 toy_x0 (t_int 0) toy_world 2 [2%nat]).
    + reflexivity.
    + reflexivity.
    + right. split; [reflexivity|left; reflexivity].
    + exact toy_scheduler_ok.
    + unfold timesteps_in_range. simpl. repeat constructor; lia.
    + exact toy_network_ok.
    + intros z [= <-]. split; [lia|discriminate].
  - cbv zeta. intros x' w' (_ & _ & _ & Hdet). apply Hdet.
    + intros i _. reflexivity.
    + apply same_objects_set_gen.
Defined.

Lemma p_sample_loop_reverse_witness :
  wp (p_sample_loop 0 [3; 2]%nat) toy_world (λ x _, shape x = [3; 2]%nat)
  ∧ descending 2 = [1; 0]%Z.
Proof.
  destruct (p_sample_loop_reverse 0 [3; 2]%nat toy_world) as (Hrun & _ & _).
  - exact toy_scheduler_ok.
  - exact toy_network_ok.
  - discriminate.
  - simpl. lia.
  - split; [|reflexivity]. eapply wp_mono; [exact Hrun|].
    cbv zeta. intros x w' (_ & _ & Hs & _). by apply Hs.
Defined.

Lemma sample_shapes_preserved_witness :
  wp (q_sample 0 toy_x0 toy_t None) toy_world (λ xt _, shape xt = shape toy_x0)
  ∧ wp (p_sample 0 toy_x0 (t_tensor toy_t)) toy_world (λ x _, shape x = shape toy_x0).
Proof.
  destruct (sample_shapes_preserved 0 toy_x0 (t_tensor toy_t) None toy_world 2 [2%nat])
    as (Hq & Hp & _).
  - reflexivity.
  - reflexivity.
  - left. split; [reflexivity|left; reflexivity].
  - exact toy_scheduler_ok.
  - exact toy_t_in_range.
  - exact toy_network_ok.
  - intros z H. discriminate H.
  - intros nz H. discriminate H.
  - split; [exact Hq|exact Hp].
Defined.

Lemma compute_loss_mse_witness :
  wp (compute_loss 0 toy_x0) toy_world (λ _ w',
    w' = set_gen toy_world 2%nat
    ∧ shape (randint 0 2 [2%nat] (gen toy_world)).1 = [2%nat]).
Proof.
  eapply wp_mono.
  - apply (compute_loss_mse 0 toy_x0 toy_world 2 [2%nat]).
    + reflexivity.
    + reflexivity.
    + exact toy_scheduler_ok.
    + simpl. lia.
    + exact toy_network_ok.
  - cbv zeta. intros loss w' (Hw & (Hs & _) & _). split; [exact Hw|exact Hs].
Defined.

(** *** Persistence, frames and errors *)

Lemma save_load_roundtrip_witness :
  wp (_ ← save 0 "ddpm.ckpt"; load 0 "ddpm.ckpt") toy_world (λ _ w',
    betas (scheduler_of w' 0) = betas (scheduler_of toy_world 0)
    ∧ ∀ x t, call (network_of w' 0) x t = call (network_of toy_world 0) x t).
Proof.
  eapply wp_mono.
  - apply (save_load_roundtrip 0 0 "ddpm.ckpt" toy_world).
    + simpl. lia.
    + simpl. apply NoDup_singleton.
  - cbv zeta. intros _ w' ((Hb & _) & Hn). split; [exact Hb|exact Hn].
Defined.

Lemma timesteps_fixed_witness :
  wp (BaseScheduler_init 3 (1 / 10000) (2 / 100) "quad") empty_world (λ r w',
    timesteps (schedulers w' !!! r) = mkTensor [3%nat] [2; 1; 0]%Z)
  ∧ schedulers (run (op_load 0 "ddpm.ckpt") toy_world).2 !! 0%nat
    = Some (scheduler_of toy_world 0).
Proof.
  destruct (timesteps_fixed 3 (1 / 10000) (2 / 100) "quad" empty_world
              (op_load 0 "ddpm.ckpt") toy_world) as [Hinit Hkeep].
  - lia.
  - by right.
  - intros self [= <-]. simpl. lia.
  - split.
    + eapply wp_mono; [exact Hinit|]. cbv zeta. intros r w' (Hts & _). exact Hts.
    + apply Hkeep. reflexivity.
Defined.

Lemma unsupported_mode_error_witness :
  BaseScheduler_init 1000 (1 / 10000) (2 / 100) "cosine" empty_world
  = (Raise (NotImplementedError "cosine is not implemented."), empty_world).
Proof.
  apply (unsupported_mode_error 1000 (1 / 10000) (2 / 100) "cosine" empty_world
           (op_save 0 "ddpm.ckpt") toy_world).
  intros [H | H]; discriminate H.
Defined.

(** C6 as stated fails in its last part: operations of the module raise
    errors of other kinds. A timestep outside the schedule makes [q_sample]
    raise the index error of [torch.gather], and [load] of a path that was
    never saved raises the error of the file system. *)
Lemma other_errors_raised :
  (run (op_q_sample 0 toy_x0 (mkTensor [1%nat] [5%Z]) None) toy_world).1
    = Raise (RuntimeError "index out of range in gather")
  ∧ (run (op_load 0 "missing.ckpt") toy_world).1 = Raise FileNotFoundError
  ∧ ¬ (∀ o e, (run o toy_world).1 = Raise e → ∃ msg, e = NotImplementedError msg).
Proof.
  split; [reflexivity|]. split; [reflexivity|].
  intros H. destruct (H (op_load 0 "missing.ckpt") FileNotFoundError eq_refl) as [msg Hm].
  discriminate Hm.
Qed.

(** *** Runs of the further properties *)

Lemma extract_result_witness :
  extract (alphas_cumprod (scheduler_of toy_world 0)) (mkTensor [1%nat] [5%Z]) toy_x0
  = Raise (RuntimeError "index out of range in gather").
Proof.
  destruct (extract_result (alphas_cumprod (scheduler_of toy_world 0))
              (mkTensor [1%nat] [5%Z]) toy_x0 1) as (_ & Hout & _).
  - reflexivity.
  - apply Hout.
    + split; [reflexivity|left; reflexivity].
    + unfold timesteps_in_range. simpl. intros H. apply Forall_inv in H. lia.
Defined.

Lemma q_sample_errors_witness :
  q_sample 0 toy_x0 (mkTensor [3%nat] [0; 1; 0]%Z) None toy_world
  = (Raise (RuntimeError "The size of tensor a must match the size of tensor b"),
     set_gen toy_world 1%nat).
Proof.
  destruct (q_sample_errors 0 toy_x0 (mkTensor [3%nat] [0; 1; 0]%Z) None toy_world
              3 2 [2%nat]) as [_ Hsize].
  - reflexivity.
  - reflexivity.
  - split; [reflexivity|left; reflexivity].
  - apply Hsize; [|lia|lia|lia].
    unfold timesteps_in_range. simpl. repeat constructor; lia.
Defined.

Lemma q_sample_one_sample_witness :
  wp (q_sample 0 (mkTensor [1; 2]%nat [3; 4]) toy_t None) toy_world (λ xt _,
    shape xt = [2; 2]%nat).
Proof.
  eapply wp_mono.
  - apply (q_sample_one_sample 0 (mkTensor [1; 2]%nat [3; 4]) toy_t None toy_world
             2 [2%nat]).
    + reflexivity.
    + reflexivity.
    + split; [reflexivity|left; reflexivity].
    + reflexivity.
    + unfold timesteps_in_range. simpl. repeat constructor; lia.
    + intros nz H. discriminate H.
  - cbv zeta. intros xt w' (Hs & _). exact Hs.
Defined.


Lemma no_parameters_StopIteration_witness :
  p_sample_loop 0 [3; 2]%nat bare_world = (Raise StopIteration, set_gen bare_world 1%nat).
Proof.
  destruct (no_parameters_StopIteration 0 bare_world) as [Hloop _].
  - reflexivity.
  - apply (Hloop [3; 2]%nat).
Defined.

Lemma p_sample_int_timestep_witness :
  p_sample 0 toy_x0 (t_int 1) toy_world
  = p_sample 0 toy_x0 (t_tensor (mkTensor [1%nat] [1%Z])) toy_world.
Proof.
  destruct (p_sample_int_timestep 0 toy_x0 1 toy_world) as [Hint _].
  apply Hint; [lia|discriminate].
Defined.

Lemma compute_loss_errors_witness :
  compute_loss 0 toy_x0 idle_world
  = (Raise (RuntimeError "random_ expects 'from' to be less than 'to'"), idle_world).
Proof.
  destruct (compute_loss_errors 0 toy_x0 idle_world) as [_ Hrand].
  apply Hrand; [discriminate|simpl; lia].
Defined.

Lemma p_sample_loop_no_steps_witness :
  p_sample_loop 0 [3; 2]%nat idle_world
  = (Ok (randn [3; 2]%nat (gen idle_world)).1, set_gen idle_world 1%nat).
Proof.
  etrans; [apply (p_sample_loop_no_steps 0 [3; 2]%nat idle_world)|reflexivity].
  - simpl. lia.
  - discriminate.
Defined.

Lemma p_sample_loop_scalar_shape_witness :
  wp (p_sample_loop 0 []) toy_world (λ x _, shape x = [1%nat]).
Proof.
  apply (p_sample_loop_scalar_shape 0 toy_world).
  - exact toy_scheduler_ok.
  - exact toy_network_ok.
  - discriminate.
  - simpl. lia.
Defined.

Lemma BaseScheduler_init_negative_witness :
  BaseScheduler_init (-1) (1 / 10000) (2 / 100) "quad" empty_world
  = (Raise (RuntimeError "number of steps must be non-negative"), empty_world).
Proof.
  apply (BaseScheduler_init_negative (-1) (1 / 10000) (2 / 100) "quad" empty_world).
  - lia.
  - by right.
Defined.


Lemma alphas_cumprod_recurrence_witness :
  wp (BaseScheduler_init 1000 (1 / 10000) (2 / 100) "linear") empty_world (λ r w',
    let vs := schedulers w' !!! r in
    item (alphas_cumprod vs) [1%nat]
    = item (alphas_cumprod vs) [0%nat] * (1 - item (betas vs) [1%nat])).
Proof.
  eapply wp_mono.
  - apply (alphas_cumprod_recurrence 1000 (1 / 10000) (2 / 100) "linear" empty_world).
    + lia.
    + by left.
  - cbv zeta. intros r w' (_ & Hrec). apply Hrec. lia.
Defined.

Lemma alike_modules_sample_alike_witness :
  agree (p_sample_loop 0 [3; 2]%nat) toy_world (p_sample_loop 1 [3; 2]%nat) twin_world.
Proof.
  destruct (alike_modules_sample_alike 0 1 toy_world twin_world) as (_ & _ & Hloop & _).
  - split; [reflexivity|]. split; [reflexivity|]. split; intros H; discriminate H.
  - reflexivity.
  - apply Hloop.
Defined.

Lemma reloaded_module_samples_alike_witness :
  wp (_ ← save 0 "ddpm.ckpt"; load 0 "ddpm.ckpt") toy_world (λ _ w',
    agree (p_sample_loop 0 [3; 2]%nat) toy_world (p_sample_loop 0 [3; 2]%nat) w').
Proof.
  eapply wp_mono.
  - apply (reloaded_module_samples_alike 0 0 "ddpm.ckpt" toy_world).
    + simpl. lia.
    + simpl. apply NoDup_singleton.
  - cbv beta. intros _ w' (_ & _ & Hloop & _). apply Hloop.
Defined.

Lemma load_unsaved_path_witness :
  (_ ← save 0 "ddpm.ckpt"; load 0 "other.ckpt") toy_world
  = (Raise FileNotFoundError, (save 0 "ddpm.ckpt" toy_world).2).
Proof.
  destruct (load_unsaved_path 0 0 "ddpm.ckpt" "other.ckpt" toy_world) as [_ H].
  - reflexivity.
  - discriminate.
  - exact H.
Defined.

Lemma load_not_atomic_witness :
  ∃ w', load 0 "stale.ckpt" stale_world
        = (Raise (RuntimeError "Error(s) in loading state_dict for DiffusionModule"), w')
    ∧ modules w' !!! 0%nat = mkDiffusionModule 1 1.
Proof.
  destruct (load_not_atomic 0 "stale.ckpt" stale_world
              (mkCheckpoint toy_network (scheduler_of toy_world 0) ∅)
              "var_scheduler.betas") as (w' & Hrun & Hm & _).
  - reflexivity.
  - simpl. lia.
  - apply elem_of_dom. eexists. apply state_dict_at_betas.
  - reflexivity.
  - exists w'. split; [exact Hrun|exact Hm].
Defined.

Lemma load_keeps_other_modules_witness :
  scheduler_of (load 0 "ddpm.ckpt" (save 1 "ddpm.ckpt" twin_world).2).2 1
  = scheduler_of twin_world 1.
Proof.
  destruct (load_keeps_other_modules 0 1 "ddpm.ckpt" (save 1 "ddpm.ckpt" twin_world).2)
    as (_ & _ & Hs & _).
  - discriminate.
  - simpl. lia.
  - simpl. lia.
  - simpl. lia.
  - exact Hs.
Defined.

Lemma save_load_scheduler_and_device_witness :
  wp (_ ← save 0 "ddpm.ckpt"; load 0 "ddpm.ckpt") toy_world (λ _ w',
    scheduler_of w' 0 = scheduler_of toy_world 0 ∧ device 0 w' = (Ok cpu, w')).
Proof.
  eapply wp_mono.
  - apply (save_load_scheduler_and_device 0 0 "ddpm.ckpt" toy_world).
    + simpl. lia.
    + simpl. apply NoDup_singleton.
  - cbv zeta. intros _ w' (Hs & _ & Hd & _). split; [exact Hs|].
    apply Hd. discriminate.
Defined.

Lemma save_paths_witness :
  wp (_ ← save 0 "a.ckpt"; _ ← save 1 "b.ckpt"; load 1 "a.ckpt") twin_world (λ _ w',
    scheduler_of w' 1 = scheduler_of twin_world 0).
Proof.
  eapply wp_mono.
  - apply (save_paths 0 1 1 "a.ckpt" "b.ckpt" twin_world).
    + simpl. lia.
    + simpl. apply NoDup_singleton.
  - cbv zeta. intros _ w' (Hs & _). exact Hs.
Defined.

Lemma compute_loss_nonneg_witness :
  wp (compute_loss 0 toy_x0) toy_world (λ loss _, 0 <= loss).
Proof.
  apply (compute_loss_nonneg 0 toy_x0 toy_world 2 [2%nat]).
  - reflexivity.
  - reflexivity.
  - discriminate.
  - exact toy_scheduler_ok.
  - simpl. lia.
  - exact toy_network_ok.
Defined.

Lemma p_sample_loop_draws_witness :
  wp (p_sample_loop 0 [3; 2]%nat) toy_world (λ _ w', w' = set_gen toy_world 3%nat).
Proof.
  eapply wp_mono.
  - apply (p_sample_loop_draws 0 toy_world 3 [2%nat]).
    + exact toy_scheduler_ok.
    + exact toy_network_ok.
    + discriminate.
    + simpl. lia.
  - cbv zeta. intros _ w' ->. reflexivity.
Defined.

Lemma p_sample_errors_witness :
  p_sample 0 toy_x0 (t_tensor (mkTensor [1%nat] [2%Z])) toy_world
  = (Raise (RuntimeError "index out of range in gather"), toy_world).
Proof.
  apply (p_sample_errors 0 toy_x0 (mkTensor [1%nat] [2%Z]) toy_world 1).
  - exact toy_scheduler_ok.
  - split; [reflexivity|left; reflexivity].
  - unfold timesteps_in_range. simpl. intros H. apply Forall_inv in H. lia.
Defined.

Lemma constructed_module_samples_witness :
  wp (s ← BaseScheduler_init 1000 (1 / 10000) (2 / 100) "linear";
      n ← new_network toy_network;
      self ← DiffusionModule_init n s;
      p_sample_loop self [3; 2]%nat) empty_world (λ x _, shape x = [3; 2]%nat).
Proof.
  eapply wp_mono.
  - apply (constructed_module_samples 1000 (1 / 10000) (2 / 100) "linear" toy_network
             3 [2%nat] empty_world).
    + lia.
    + by left.
    + discriminate.
    + exact toy_network_ok.
    + discriminate.
  - cbv beta. intros x w' [Hs _]. exact Hs.
Defined.
